(** * The JNI value-and-call bridge of ReactAndroid (react/jni/OnLoad.cpp)

    A shallow embedding of the native side of the React bridge: the
    consumable containers [NativeArray] and [NativeMap] over [folly::dynamic],
    the key iterator, and the dispatch of JavaScript method-call batches to
    the Java callback.  Java objects live in a heap indexed by handles, so
    that the effect of an operation on every object that aliases its
    arguments is visible. *)

From Stdlib Require Import ZArith Floats.SpecFloat.
From stdpp Require Import gmap strings list fin_maps.

Set Warnings "-register-all".
Open Scope Z_scope.

(** ** folly::dynamic *)

(** [jdouble] and the DOUBLE alternative of [folly::dynamic] are IEEE-754
    binary64 values. *)
Definition jdouble : Type := spec_float.

(** The tagged union.  The keys of an object are the strings this file
    inserts; an object has one entry per key, as [std::unordered_map] has,
    and is iterated in the order of [map_to_list]. *)
Inductive dynamic :=
| DNull
| DBool (b : bool)
| DDouble (d : jdouble)
| DInt64 (n : Z)
| DString (s : string)
| DArray (l : list dynamic)
| DObject (m : gmap string dynamic).

(** [folly::dynamic::Type] *)
Inductive Type_ := NULLT | ARRAY | BOOL | DOUBLE | INT64 | OBJECT | STRING.

(** The conversion of an integer to [double] (the implicit conversion of
    [int64_t] in [getDouble], the cast of [jint] in [callFunction]): the
    nearest binary64 value, ties to even. *)
Definition double_of_int (n : Z) : jdouble := binary_normalize 53 1024 n 0 false.

(** [double_is_int d n]: the real number denoted by [d] is the integer [n]. *)
Definition double_is_int (d : jdouble) (n : Z) : bool :=
  match d with
  | S754_zero _ => n =? 0
  | S754_finite s m e =>
      if e <? 0 then cond_Zopp s (Zpos m) =? n * 2 ^ (- e)
      else cond_Zopp s (Zpos m) * 2 ^ e =? n
  | _ => false
  end.

(** The state in which a move leaves its source: the alternative is kept,
    a container or string is left empty. *)
Definition moved_from (d : dynamic) : dynamic :=
  match d with
  | DString _ => DString ""
  | DArray _ => DArray []
  | DObject _ => DObject ∅
  | _ => d
  end.

(** ** Exceptions and results *)

Inductive exn :=
| JavaException (className : string) (msg : string)
| std_out_of_range (what : string)
| folly_TypeError (expected : string) (actual : string).

(** [ex.what()] *)
Definition what (e : exn) : string :=
  match e with
  | JavaException _ msg => msg
  | std_out_of_range w => w
  | folly_TypeError expected actual =>
      "TypeError: expected dynamic type `" +:+ expected +:+
      "', but had type `" +:+ actual +:+ "'"
  end.

(** A call returns, throws, or runs into behaviour that C++ leaves open: a
    handle that does not denote an object of the class the Java signature
    promises, a container moved into itself or erased while it is iterated,
    an iterator used past the end. *)
Inductive result (A : Type) :=
| Ok (a : A)
| Throw (e : exn)
| Unspecified.
Arguments Ok {A} a.
Arguments Throw {A} e.
Arguments Unspecified {A}.

Definition throwNewJavaException {A} (className msg : string) : result A :=
  Throw (JavaException className msg).

(** *** Accessors of [folly::dynamic] *)

Module folly.

Definition type (d : dynamic) : Type_ :=
  match d with
  | DNull => NULLT
  | DBool _ => BOOL
  | DDouble _ => DOUBLE
  | DInt64 _ => INT64
  | DString _ => STRING
  | DArray _ => ARRAY
  | DObject _ => OBJECT
  end.

Definition typeName (d : dynamic) : string :=
  match type d with
  | NULLT => "null"
  | ARRAY => "array"
  | BOOL => "boolean"
  | DOUBLE => "double"
  | INT64 => "int64"
  | OBJECT => "object"
  | STRING => "string"
  end.

Definition isNull (d : dynamic) : bool :=
  match d with DNull => true | _ => false end.

Definition isInt (d : dynamic) : bool :=
  match d with DInt64 _ => true | _ => false end.

Definition isObject (d : dynamic) : bool :=
  match d with DObject _ => true | _ => false end.

Definition isArray (d : dynamic) : bool :=
  match d with DArray _ => true | _ => false end.

Definition TypeError {A} (expected : string) (d : dynamic) : result A :=
  Throw (folly_TypeError expected (typeName d)).

Definition getBool (d : dynamic) : result bool :=
  match d with DBool b => Ok b | _ => TypeError "boolean" d end.

Definition getInt (d : dynamic) : result Z :=
  match d with DInt64 n => Ok n | _ => TypeError "int64" d end.

Definition getDouble (d : dynamic) : result jdouble :=
  match d with DDouble x => Ok x | _ => TypeError "double" d end.

Definition getString (d : dynamic) : result string :=
  match d with DString s => Ok s | _ => TypeError "string" d end.


(** [d.at(index)] with an integer index *)
Definition at_index (d : dynamic) (index : Z) : result dynamic :=
  match d with
  | DArray l =>
      if (index <? 0) || (Z.of_nat (length l) <=? index)
      then Throw (std_out_of_range "out of range in dynamic array")
      else match l !! Z.to_nat index with
           | Some v => Ok v
           | None => Unspecified
           end
  | DObject _ => Throw (std_out_of_range "couldn't find key in dynamic object")
  | _ => TypeError "object/array" d
  end.

(** [d.at(key)] with a string key *)
Definition at_key (d : dynamic) (key : string) : result dynamic :=
  match d with
  | DObject m =>
      match m !! key with
      | Some v => Ok v
      | None => Throw (std_out_of_range
                         ("couldn't find key " +:+ key +:+ " in dynamic object"))
      end
  | DArray _ => TypeError "int64" (DString key)
  | _ => TypeError "object/array" d
  end.

(** [d.find(key) != d.items().end()] *)
Definition find_key (d : dynamic) (key : string) : result bool :=
  match d with
  | DObject m => Ok (bool_decide (is_Some (m !! key)))
  | _ => TypeError "object" d
  end.

Definition items (d : dynamic) : result (list (string * dynamic)) :=
  match d with
  | DObject m => Ok (map_to_list m)
  | _ => TypeError "object" d
  end.

Definition push_back (d : dynamic) (v : dynamic) : result dynamic :=
  match d with
  | DArray l => Ok (DArray (l ++ [v]))
  | _ => TypeError "array" d
  end.

(** [d.insert(key, v)] assigns the value also when the key is present. *)
Definition insert (d : dynamic) (key : string) (v : dynamic) : result dynamic :=
  match d with
  | DObject m => Ok (DObject (<[key := v]> m))
  | _ => TypeError "object" d
  end.

Definition erase (d : dynamic) (key : string) : result dynamic :=
  match d with
  | DObject m => Ok (DObject (delete key m))
  | _ => TypeError "object" d
  end.

End folly.

(** ** The Java heap *)

(** A [jobject]: the handle of a Java object with a native counterpart. *)
Definition jobject : Type := nat.

(** A reference that may be [NULL]. *)
Definition nullable (A : Type) : Type := option A.

Module NativeArray.

(** Declared in NativeArray.h: the flag and the array value that this file
    reads and writes. *)
Record t := { isConsumed : bool; array : dynamic }.

End NativeArray.

Module NativeMap.

Record t := { isConsumed : bool; map : dynamic }.

(** [bool isConsumed = false; folly::dynamic map = folly::dynamic::object] *)
Definition new : t := {| isConsumed := false; map := DObject ∅ |}.

End NativeMap.

Module ReadableNativeMapKeySeyIterator.

(** [iterator]: the number of entries of [mapRef]'s object before the
    cursor; [begin()] is 0 and [end()] the number of entries. *)
Record t := { iterator : nat; mapRef : jobject }.

End ReadableNativeMapKeySeyIterator.

Record heap := {
  arrays : gmap jobject NativeArray.t;
  maps : gmap jobject NativeMap.t;
  iterators : gmap jobject ReadableNativeMapKeySeyIterator.t
}.

(** The objects that carry the [isConsumed] flag
    ([template <typename T> ... t->isConsumed]). *)
Class Consumable (T : Type) := isConsumed : T → bool.
#[global] Instance NativeArray_Consumable : Consumable NativeArray.t :=
  NativeArray.isConsumed.
#[global] Instance NativeMap_Consumable : Consumable NativeMap.t :=
  NativeMap.isConsumed.

(** ** Native methods: state and exceptions *)

(** A native method runs on the heap and returns, throws or is unspecified;
    the heap it leaves is part of the outcome in each case. *)
Definition JNI (A : Type) : Type := heap → result A * heap.

#[global] Instance JNI_ret : MRet JNI := λ A a h, (Ok a, h).
#[global] Instance JNI_bind : MBind JNI := λ A B f c h,
  match c h with
  | (Ok a, h') => f a h'
  | (Throw e, h') => (Throw e, h')
  | (Unspecified, h') => (Unspecified, h')
  end.

(** A computation of [folly::dynamic] inside a native method. *)
Definition lift {A} (r : result A) : JNI A := λ h, (r, h).

(** [try { c } catch (const E& ex) { handler }] *)
Definition try_catch {A} (c : JNI A) (handler : exn → option (JNI A)) : JNI A :=
  λ h, match c h with
       | (Throw e, h') =>
           match handler e with
           | Some k => k h'
           | None => (Throw e, h')
           end
       | r => r
       end.

Definition extractNativeArray (obj : jobject) : JNI NativeArray.t :=
  λ h, match arrays h !! obj with
       | Some a => (Ok a, h)
       | None => (Unspecified, h)
       end.

Definition extractNativeMap (obj : jobject) : JNI NativeMap.t :=
  λ h, match maps h !! obj with
       | Some m => (Ok m, h)
       | None => (Unspecified, h)
       end.

Definition extractIterator (obj : jobject) : JNI ReadableNativeMapKeySeyIterator.t :=
  λ h, match iterators h !! obj with
       | Some i => (Ok i, h)
       | None => (Unspecified, h)
       end.

Definition setNativeArray (obj : jobject) (a : NativeArray.t) : JNI unit :=
  λ h, (Ok tt, {| arrays := <[obj := a]> (arrays h);
                  maps := maps h; iterators := iterators h |}).

Definition setNativeMap (obj : jobject) (m : NativeMap.t) : JNI unit :=
  λ h, (Ok tt, {| arrays := arrays h;
                  maps := <[obj := m]> (maps h); iterators := iterators h |}).

Definition setIterator (obj : jobject) (i : ReadableNativeMapKeySeyIterator.t) : JNI unit :=
  λ h, (Ok tt, {| arrays := arrays h; maps := maps h;
                  iterators := <[obj := i]> (iterators h) |}).

(** [env->NewObject] of a class with a native counterpart: a handle that
    no object of the class has yet.  The allocation is taken to succeed. *)
Definition newNativeArray (a : NativeArray.t) : JNI jobject :=
  λ h, let obj := fresh (dom (arrays h)) in
       (Ok obj, {| arrays := <[obj := a]> (arrays h);
                   maps := maps h; iterators := iterators h |}).

Definition newNativeMap (m : NativeMap.t) : JNI jobject :=
  λ h, let obj := fresh (dom (maps h)) in
       (Ok obj, {| arrays := arrays h;
                   maps := <[obj := m]> (maps h); iterators := iterators h |}).

Module exceptions.

Definition gUnknownNativeTypeExceptionClass : string :=
  "com/facebook/react/bridge/UnexpectedNativeTypeException".

Definition throwIfObjectAlreadyConsumed {T} `{Consumable T}
    (t : T) (msg : string) : JNI unit :=
  if isConsumed t
  then lift (throwNewJavaException
               "com/facebook/react/bridge/ObjectAlreadyConsumedException" msg)
  else mret tt.

End exceptions.

Definition createReadableNativeMapWithContents (map : dynamic)
    : JNI (nullable jobject) :=
  if folly.isNull map then mret None
  else if negb (folly.isObject map)
  then lift (throwNewJavaException exceptions.gUnknownNativeTypeExceptionClass
               ("expected Map, got a " +:+ folly.typeName map))
  else
    jnewMap ← newNativeMap NativeMap.new;
    nativeMap ← extractNativeMap jnewMap;
    setNativeMap jnewMap
      {| NativeMap.isConsumed := NativeMap.isConsumed nativeMap;
         NativeMap.map := map |};;
    mret (Some jnewMap).

(** Modelled from the spec: [createReadableNativeArrayWithContents] of
    NativeArray.cpp, which is not part of this file.  "A null value read as
    Array/Map/String yields an explicit no-value result rather than an
    error"; "a kind mismatch fails with a TypeMismatch error carrying the
    expected vs. actual kind name".  It follows its sibling for maps.
    [readableNativeArrayOf] is the native counterpart of the new object. *)
Definition readableNativeArrayOf (array : dynamic) : result (nullable NativeArray.t) :=
  if folly.isNull array then Ok None
  else if negb (folly.isArray array)
  then throwNewJavaException exceptions.gUnknownNativeTypeExceptionClass
         ("expected Array, got a " +:+ folly.typeName array)
  else Ok (Some {| NativeArray.isConsumed := false; NativeArray.array := array |}).

Definition createReadableNativeArrayWithContents (array : dynamic)
    : JNI (nullable jobject) :=
  contents ← lift (readableNativeArrayOf array);
  match contents with
  | None => mret None
  | Some nativeArray =>
      jnewArray ← newNativeArray nativeArray;
      mret (Some jnewArray)
  end.

(** ** The type tags shown to Java *)

Module ReadableType.

Inductive t := Null | Boolean | Number | String | Map | Array.

End ReadableType.

Module type.

Definition gTypeNullValue := ReadableType.Null.
Definition gTypeBooleanValue := ReadableType.Boolean.
Definition gTypeNumberValue := ReadableType.Number.
Definition gTypeStringValue := ReadableType.String.
Definition gTypeMapValue := ReadableType.Map.
Definition gTypeArrayValue := ReadableType.Array.

(** The [default:] branch of the switch has no alternative left to take. *)
Definition getType (type : Type_) : ReadableType.t :=
  match type with
  | NULLT => gTypeNullValue
  | BOOL => gTypeBooleanValue
  | DOUBLE | INT64 => gTypeNumberValue
  | STRING => gTypeStringValue
  | OBJECT => gTypeMapValue
  | ARRAY => gTypeArrayValue
  end.

End type.

(** ** Arrays *)

Module ReadableNativeArray.

(** [array.at(index)] of the receiver.  No reader tests [isConsumed]. *)
Definition array_at (this : jobject) (index : Z) : JNI dynamic :=
  self ← extractNativeArray this;
  lift (folly.at_index (NativeArray.array self) index).


Definition isNull (this : jobject) (index : Z) : JNI bool :=
  v ← array_at this index;
  mret (folly.isNull v).

Definition getBoolean (this : jobject) (index : Z) : JNI bool :=
  v ← array_at this index;
  lift (folly.getBool v).

Definition getDouble (this : jobject) (index : Z) : JNI jdouble :=
  val ← array_at this index;
  if folly.isInt val then
    n ← lift (folly.getInt val);
    mret (double_of_int n)
  else lift (folly.getDouble val).

Definition getString (this : jobject) (index : Z) : JNI (nullable string) :=
  dyn ← array_at this index;
  if folly.isNull dyn then mret None
  else
    s ← lift (folly.getString dyn);
    mret (Some s).

Definition getArray (this : jobject) (index : Z) : JNI (nullable jobject) :=
  v ← array_at this index;
  createReadableNativeArrayWithContents v.

Definition getMap (this : jobject) (index : Z) : JNI (nullable jobject) :=
  v ← array_at this index;
  createReadableNativeMapWithContents v.

Definition getType (this : jobject) (index : Z) : JNI ReadableType.t :=
  v ← array_at this index;
  mret (type.getType (folly.type v)).

End ReadableNativeArray.

Module WritableNativeArray.

(** [array.push_back(v)] on the receiver, whose flag is kept. *)
Definition array_push_back (this : jobject) (self : NativeArray.t) (v : dynamic)
    : JNI unit :=
  array' ← lift (folly.push_back (NativeArray.array self) v);
  setNativeArray this
    {| NativeArray.isConsumed := NativeArray.isConsumed self;
       NativeArray.array := array' |}.

Definition pushNull (this : jobject) : JNI unit :=
  self ← extractNativeArray this;
  exceptions.throwIfObjectAlreadyConsumed self "Array already consumed";;
  array_push_back this self DNull.

Definition pushBoolean (this : jobject) (value : bool) : JNI unit :=
  self ← extractNativeArray this;
  exceptions.throwIfObjectAlreadyConsumed self "Array already consumed";;
  array_push_back this self (DBool value).

Definition pushDouble (this : jobject) (value : jdouble) : JNI unit :=
  self ← extractNativeArray this;
  exceptions.throwIfObjectAlreadyConsumed self "Receiving array already consumed";;
  array_push_back this self (DDouble value).

Definition pushString (this : jobject) (value : nullable string) : JNI unit :=
  match value with
  | None => pushNull this
  | Some s =>
      self ← extractNativeArray this;
      exceptions.throwIfObjectAlreadyConsumed self "Receiving array already consumed";;
      array_push_back this self (DString s)
  end.

(** Pushing an array into itself moves the vector that is being appended
    to; that case is left open. *)
Definition pushArray (this : jobject) (otherArray : nullable jobject) : JNI unit :=
  match otherArray with
  | None => pushNull this
  | Some other =>
      self ← extractNativeArray this;
      exceptions.throwIfObjectAlreadyConsumed self "Receiving array already consumed";;
      otherArray ← extractNativeArray other;
      exceptions.throwIfObjectAlreadyConsumed otherArray "Array to push already consumed";;
      if decide (this = other) then lift Unspecified
      else
        array_push_back this self (NativeArray.array otherArray);;
        setNativeArray other
          {| NativeArray.isConsumed := true;
             NativeArray.array := moved_from (NativeArray.array otherArray) |}
  end.

Definition pushMap (this : jobject) (jmap : nullable jobject) : JNI unit :=
  match jmap with
  | None => pushNull this
  | Some jmap =>
      self ← extractNativeArray this;
      exceptions.throwIfObjectAlreadyConsumed self "Receiving array already consumed";;
      map ← extractNativeMap jmap;
      exceptions.throwIfObjectAlreadyConsumed map "Map to push already consumed";;
      array_push_back this self (NativeMap.map map);;
      setNativeMap jmap
        {| NativeMap.isConsumed := true;
           NativeMap.map := moved_from (NativeMap.map map) |}
  end.

End WritableNativeArray.

(** ** Maps *)

Module map.

Definition initialize (obj : jobject) : JNI unit :=
  setNativeMap obj NativeMap.new.

Section toString.

(** [folly::toJson], the serializer of the folly library. *)
Variable toJson : dynamic → string.

Definition toString (obj : jobject) : JNI string :=
  nativeMap ← extractNativeMap obj;
  exceptions.throwIfObjectAlreadyConsumed nativeMap "Map already consumed";;
  mret ("{ NativeMap: " +:+ toJson (NativeMap.map nativeMap) +:+ " }").

End toString.

Module writable.

(** [map->map.insert(key, v)] on the receiver, whose flag is kept. *)
Definition map_insert (obj : jobject) (map : NativeMap.t) (key : string)
    (v : dynamic) : JNI unit :=
  map' ← lift (folly.insert (NativeMap.map map) key v);
  setNativeMap obj
    {| NativeMap.isConsumed := NativeMap.isConsumed map;
       NativeMap.map := map' |}.

Definition putNull (obj : jobject) (key : string) : JNI unit :=
  map ← extractNativeMap obj;
  exceptions.throwIfObjectAlreadyConsumed map "Receiving map already consumed";;
  map_insert obj map key DNull.

Definition putBoolean (obj : jobject) (key : string) (value : bool) : JNI unit :=
  map ← extractNativeMap obj;
  exceptions.throwIfObjectAlreadyConsumed map "Receiving map already consumed";;
  map_insert obj map key (DBool value).

Definition putDouble (obj : jobject) (key : string) (value : jdouble) : JNI unit :=
  map ← extractNativeMap obj;
  exceptions.throwIfObjectAlreadyConsumed map "Receiving map already consumed";;
  map_insert obj map key (DDouble value).

Definition putString (obj : jobject) (key : string) (value : nullable string)
    : JNI unit :=
  match value with
  | None => putNull obj key
  | Some s =>
      map ← extractNativeMap obj;
      exceptions.throwIfObjectAlreadyConsumed map "Receiving map already consumed";;
      map_insert obj map key (DString s)
  end.

Definition putArray (obj : jobject) (key : string) (value : nullable jobject)
    : JNI unit :=
  match value with
  | None => putNull obj key
  | Some value =>
      parentMap ← extractNativeMap obj;
      exceptions.throwIfObjectAlreadyConsumed parentMap "Receiving map already consumed";;
      arrayValue ← extractNativeArray value;
      exceptions.throwIfObjectAlreadyConsumed arrayValue "Array to put already consumed";;
      map_insert obj parentMap key (NativeArray.array arrayValue);;
      setNativeArray value
        {| NativeArray.isConsumed := true;
           NativeArray.array := moved_from (NativeArray.array arrayValue) |}
  end.

(** Putting a map into itself moves the table that is being inserted
    into; that case is left open. *)
Definition putMap (obj : jobject) (key : string) (value : nullable jobject)
    : JNI unit :=
  match value with
  | None => putNull obj key
  | Some value =>
      parentMap ← extractNativeMap obj;
      exceptions.throwIfObjectAlreadyConsumed parentMap "Receiving map already consumed";;
      mapValue ← extractNativeMap value;
      exceptions.throwIfObjectAlreadyConsumed mapValue "Map to put already consumed";;
      if decide (obj = value) then lift Unspecified
      else
        map_insert obj parentMap key (NativeMap.map mapValue);;
        setNativeMap value
          {| NativeMap.isConsumed := true;
             NativeMap.map := moved_from (NativeMap.map mapValue) |}
  end.

(** The body of [for (auto sourceIt : sourceMap->map.items())]: each entry
    is a copy of the source's, erased from and inserted into the
    destination. *)
Fixpoint mergeMap_loop (obj : jobject) (sourceItems : list (string * dynamic))
    : JNI unit :=
  match sourceItems with
  | [] => mret tt
  | sourceIt :: rest =>
      destMap ← extractNativeMap obj;
      erased ← lift (folly.erase (NativeMap.map destMap) sourceIt.1);
      inserted ← lift (folly.insert erased sourceIt.1 sourceIt.2);
      setNativeMap obj
        {| NativeMap.isConsumed := NativeMap.isConsumed destMap;
           NativeMap.map := inserted |};;
      mergeMap_loop obj rest
  end.

(** Merging a map into itself erases from the table under the loop's
    iterator; that case is left open. *)
Definition mergeMap (obj source : jobject) : JNI unit :=
  sourceMap ← extractNativeMap source;
  exceptions.throwIfObjectAlreadyConsumed sourceMap "Source map already consumed";;
  destMap ← extractNativeMap obj;
  exceptions.throwIfObjectAlreadyConsumed destMap "Destination map already consumed";;
  if decide (obj = source) then lift Unspecified
  else
    sourceItems ← lift (folly.items (NativeMap.map sourceMap));
    mergeMap_loop obj sourceItems.

End writable.

Module readable.

Definition gNoSuchKeyExceptionClass : string :=
  "com/facebook/react/bridge/NoSuchKeyException".

(** No reader tests [isConsumed]. *)
Definition hasKey (obj : jobject) (keyName : string) : JNI bool :=
  nativeMap ← extractNativeMap obj;
  lift (folly.find_key (NativeMap.map nativeMap) keyName).

Definition getMapValue (obj : jobject) (keyName : string) : JNI dynamic :=
  nativeMap ← extractNativeMap obj;
  try_catch (lift (folly.at_key (NativeMap.map nativeMap) keyName))
    (λ ex, match ex with
           | std_out_of_range _ =>
               Some (lift (throwNewJavaException gNoSuchKeyExceptionClass (what ex)))
           | _ => None
           end).

(** [catch (const folly::TypeError& ex)] of the typed getters *)
Definition catch_TypeError {A} (ex : exn) : option (JNI A) :=
  match ex with
  | folly_TypeError _ _ =>
      Some (lift (throwNewJavaException
                    exceptions.gUnknownNativeTypeExceptionClass (what ex)))
  | _ => None
  end.

Definition isNull (obj : jobject) (keyName : string) : JNI bool :=
  v ← getMapValue obj keyName;
  mret (folly.isNull v).

Definition getBooleanKey (obj : jobject) (keyName : string) : JNI bool :=
  try_catch (v ← getMapValue obj keyName; lift (folly.getBool v))
    catch_TypeError.

Definition getDoubleKey (obj : jobject) (keyName : string) : JNI jdouble :=
  val ← getMapValue obj keyName;
  if folly.isInt val then
    n ← lift (folly.getInt val);
    mret (double_of_int n)
  else try_catch (lift (folly.getDouble val)) catch_TypeError.

Definition getStringKey (obj : jobject) (keyName : string) : JNI (nullable string) :=
  val ← getMapValue obj keyName;
  if folly.isNull val then mret None
  else try_catch (s ← lift (folly.getString val); mret (Some s)) catch_TypeError.

Definition getArrayKey (obj : jobject) (keyName : string) : JNI (nullable jobject) :=
  v ← getMapValue obj keyName;
  createReadableNativeArrayWithContents v.

Definition getMapKey (obj : jobject) (keyName : string) : JNI (nullable jobject) :=
  v ← getMapValue obj keyName;
  createReadableNativeMapWithContents v.

Definition getValueType (obj : jobject) (keyName : string) : JNI ReadableType.t :=
  v ← getMapValue obj keyName;
  mret (type.getType (folly.type v)).

End readable.

Module iterator.

Definition initialize (obj nativeMapObj : jobject) : JNI unit :=
  nativeMap ← extractNativeMap nativeMapObj;
  lift (folly.items (NativeMap.map nativeMap));;
  setIterator obj
    {| ReadableNativeMapKeySeyIterator.iterator := 0;
       ReadableNativeMapKeySeyIterator.mapRef := nativeMapObj |}.

Definition hasNextKey (obj : jobject) : JNI bool :=
  nativeIterator ← extractIterator obj;
  mapRef ← extractNativeMap (ReadableNativeMapKeySeyIterator.mapRef nativeIterator);
  entries ← lift (folly.items (NativeMap.map mapRef));
  mret (negb (ReadableNativeMapKeySeyIterator.iterator nativeIterator
              =? length entries)%nat).

Definition getNextKey (obj : jobject) : JNI string :=
  nativeIterator ← extractIterator obj;
  more ← hasNextKey obj;
  if negb more
  then lift (throwNewJavaException
               "com/facebook/react/bridge/InvalidIteratorException"
               "No such element exists")
  else
    mapRef ← extractNativeMap (ReadableNativeMapKeySeyIterator.mapRef nativeIterator);
    entries ← lift (folly.items (NativeMap.map mapRef));
    match entries !! ReadableNativeMapKeySeyIterator.iterator nativeIterator with
    | None => lift Unspecified
    | Some entry =>
        setIterator obj
          {| ReadableNativeMapKeySeyIterator.iterator :=
               S (ReadableNativeMapKeySeyIterator.iterator nativeIterator);
             ReadableNativeMapKeySeyIterator.mapRef :=
               ReadableNativeMapKeySeyIterator.mapRef nativeIterator |};;
        mret entry.1
    end.

End iterator.

End map.

(** ** The bridge *)

(** Modelled from the spec: [MethodCall] of react/Bridge.h, which is not
    part of this file: "{moduleId: int, methodId: int, arguments:
    DynamicValue(Array)}". *)
Record MethodCall := { moduleId : Z; methodId : Z; arguments : dynamic }.

(** What the native code observes of a [ReactCallback] object: whether an
    invocation of [call] or of [onBatchComplete] leaves a Java exception
    pending. *)
Record ReactCallback := {
  call_throws : Z → Z → nullable NativeArray.t → bool;
  onBatchComplete_throws : bool
}.

(** The invocations that a callback receives; the array handed to [call]
    is written as its native counterpart. *)
Inductive invocation :=
| gCallbackMethod (moduleId methodId : Z) (args : nullable NativeArray.t)
| gOnBatchCompleteMethod.

(** A [jni::WeakReference] names a Java object without keeping it alive. *)
Definition WeakReference : Type := jobject.

(** The closure that [dispatchCallbacksToJava] binds:
    [std::bind([weakCallback] (std::vector<MethodCall>& calls) {...}, std::move(calls))]. *)
Record NativeRunnable := {
  weakCallback : WeakReference;
  calls : list MethodCall
}.

(** The Java side as a native method sees it on its thread: the callback
    and queue objects that are still alive (a queue with the runnables
    submitted to it, oldest first), the pending-exception flag of the
    current thread, and the invocations made on callbacks so far. *)
Record Java := {
  callbackObjects : gmap jobject ReactCallback;
  queueThreadObjects : gmap jobject (list NativeRunnable);
  ExceptionCheck : bool;
  received : list (jobject * invocation)
}.

(** A native function that runs on the Java side only. *)
Definition Native (A : Type) : Type := Java → result A * Java.

(** [ResolvedWeakReference]: the object, or nothing when it is gone. *)
Definition ResolvedWeakReference_callback (w : WeakReference) (j : Java)
    : nullable ReactCallback :=
  callbackObjects j !! w.

Definition ResolvedWeakReference_queue (w : WeakReference) (j : Java)
    : nullable (list NativeRunnable) :=
  queueThreadObjects j !! w.

(** [env->CallVoidMethod(callback, method, ...)] on a callback: the
    invocation is received, and an exception it throws stays pending. *)
Definition CallVoidMethod (callback : jobject) (i : invocation) (throws : bool)
    (j : Java) : Java :=
  {| callbackObjects := callbackObjects j;
     queueThreadObjects := queueThreadObjects j;
     ExceptionCheck := ExceptionCheck j || throws;
     received := received j ++ [(callback, i)] |}.

(** [Bridge] of react/Bridge.h is not part of this file.  Of
    [executeJSCall] the callers below use that it takes the call by value
    and returns or throws. *)
Record Bridge := {
  executeJSCall : string → string → list dynamic → result unit
}.

Module queue.

(** [runOnQueue]: the runnable is appended to the queue's submissions. *)
Definition enqueueNativeRunnableOnQueue (callbackQueueThread : jobject)
    (submitted : list NativeRunnable) (nativeRunnable : NativeRunnable)
    (j : Java) : Java :=
  {| callbackObjects := callbackObjects j;
     queueThreadObjects :=
       <[callbackQueueThread := submitted ++ [nativeRunnable]]> (queueThreadObjects j);
     ExceptionCheck := ExceptionCheck j;
     received := received j |}.

End queue.

Module bridge.

Definition makeJavaCall (callback : jobject) (cb : ReactCallback)
    (call : MethodCall) : Native unit :=
  λ j,
  if folly.isNull (arguments call) then (Ok tt, j)
  else
    match readableNativeArrayOf (arguments call) with
    | Ok newArray =>
        (Ok tt,
         CallVoidMethod callback
           (gCallbackMethod (moduleId call) (methodId call) newArray)
           (call_throws cb (moduleId call) (methodId call) newArray) j)
    | Throw e => (Throw e, j)
    | Unspecified => (Unspecified, j)
    end.

Definition signalBatchComplete (callback : jobject) (cb : ReactCallback)
    : Native unit :=
  λ j, (Ok tt, CallVoidMethod callback gOnBatchCompleteMethod (onBatchComplete_throws cb) j).

(** The loop of the runnable: [Ok true] when every call was made with no
    exception pending afterwards, so that the batch is to be completed;
    [Ok false] when the loop returned at a pending exception. *)
Fixpoint deliver (callback : jobject) (cb : ReactCallback)
    (calls : list MethodCall) (j : Java) : result bool * Java :=
  match calls with
  | [] => (Ok true, j)
  | call :: rest =>
      match makeJavaCall callback cb call j with
      | (Ok _, j') =>
          if ExceptionCheck j' then (Ok false, j')
          else deliver callback cb rest j'
      | (Throw e, j') => (Throw e, j')
      | (Unspecified, j') => (Unspecified, j')
      end
  end.

(** The lambda bound in [dispatchCallbacksToJava], run later by the queue
    thread. *)
Definition runnableFunction (weakCallback : WeakReference)
    (calls : list MethodCall) : Native unit :=
  λ j,
  if ExceptionCheck j then (Ok tt, j)
  else
    match ResolvedWeakReference_callback weakCallback j with
    | Some cb =>
        match deliver weakCallback cb calls j with
        | (Ok true, j') => signalBatchComplete weakCallback cb j'
        | (Ok false, j') => (Ok tt, j')
        | (Throw e, j') => (Throw e, j')
        | (Unspecified, j') => (Unspecified, j')
        end
    | None => (Ok tt, j)
    end.

Definition dispatchCallbacksToJava (weakCallback weakCallbackQueueThread : WeakReference)
    (calls : list MethodCall) : Native unit :=
  λ j,
  if ExceptionCheck j then (Ok tt, j)
  else
    match ResolvedWeakReference_queue weakCallbackQueueThread j with
    | None => (Ok tt, j)
    | Some submitted =>
        let jNativeRunnable := {| weakCallback := weakCallback; calls := calls |} in
        (Ok tt,
         queue.enqueueNativeRunnableOnQueue weakCallbackQueueThread submitted
           jNativeRunnable j)
    end.

(** [catch (...) { translatePendingCppExceptionToJavaException(); }]: the
    exception of the executor reaches the Java caller; its translation to a
    Java class is the binding library's and is not modelled. *)
Definition translatePendingCppExceptionToJavaException {A} (ex : exn)
    : option (JNI A) :=
  Some (lift (Throw ex)).

Definition callFunction (bridge : Bridge) (moduleId methodId : Z) (args : jobject)
    : JNI unit :=
  arguments ← extractNativeArray args;
  let call := [DDouble (double_of_int moduleId);
               DDouble (double_of_int methodId);
               NativeArray.array arguments] in
  setNativeArray args
    {| NativeArray.isConsumed := NativeArray.isConsumed arguments;
       NativeArray.array := moved_from (NativeArray.array arguments) |};;
  try_catch
    (lift (executeJSCall bridge "BatchedBridge" "callFunctionReturnFlushedQueue" call))
    translatePendingCppExceptionToJavaException.

Definition invokeCallback (bridge : Bridge) (callbackId : Z) (args : jobject)
    : JNI unit :=
  arguments ← extractNativeArray args;
  let call := [DDouble (double_of_int callbackId);
               NativeArray.array arguments] in
  setNativeArray args
    {| NativeArray.isConsumed := NativeArray.isConsumed arguments;
       NativeArray.array := moved_from (NativeArray.array arguments) |};;
  try_catch
    (lift (executeJSCall bridge "BatchedBridge" "invokeCallbackAndReturnFlushedQueue" call))
    translatePendingCppExceptionToJavaException.

End bridge.

Module runnable.

(** [nativeRunnable->callable()] *)
Definition run (jNativeRunnable : NativeRunnable) : Native unit :=
  bridge.runnableFunction (weakCallback jNativeRunnable) (calls jNativeRunnable).

End runnable.

(** * Specification *)

(** ** Outcomes *)

Definition ObjectAlreadyConsumedException : string :=
  "com/facebook/react/bridge/ObjectAlreadyConsumedException".

(** The call throws [ObjectAlreadyConsumedException] with [msg] and leaves
    the heap, hence every container's value, as it found it. *)
Definition rejects_consumed {A} (c : JNI A) (msg : string) (h : heap) : Prop :=
  c h = (Throw (JavaException ObjectAlreadyConsumedException msg), h).

(** The call does not throw [ObjectAlreadyConsumedException]. *)
Definition accepts_consumed {A} (c : JNI A) (h : heap) : Prop :=
  ∀ msg, (c h).1 ≠ Throw (JavaException ObjectAlreadyConsumedException msg).

(** A container: an array or a map, by its handle. *)
Inductive container :=
| AnArray (this : jobject)
| AMap (obj : jobject).

Definition consumed (h : heap) (c : container) : Prop :=
  match c with
  | AnArray this => ∃ a, arrays h !! this = Some a ∧ NativeArray.isConsumed a = true
  | AMap obj => ∃ m, maps h !! obj = Some m ∧ NativeMap.isConsumed m = true
  end.

Definition unconsumed (h : heap) (c : container) : Prop :=
  match c with
  | AnArray this => ∃ a, arrays h !! this = Some a ∧ NativeArray.isConsumed a = false
  | AMap obj => ∃ m, maps h !! obj = Some m ∧ NativeMap.isConsumed m = false
  end.

(** The heap in which the flag of [c] is [b] and all else is as in [h]. *)
Definition with_flag (b : bool) (c : container) (h : heap) : heap :=
  match c with
  | AnArray this =>
      {| arrays := alter (λ a, {| NativeArray.isConsumed := b;
                                  NativeArray.array := NativeArray.array a |})
                     this (arrays h);
         maps := maps h; iterators := iterators h |}
  | AMap obj =>
      {| arrays := arrays h;
         maps := alter (λ m, {| NativeMap.isConsumed := b;
                                NativeMap.map := NativeMap.map m |})
                   obj (maps h);
         iterators := iterators h |}
  end.

(** Every mutator of the container, and [toString] of a map, throws
    [ObjectAlreadyConsumedException] and changes nothing.  [merge] is taken
    with the container on either side. *)
Definition mutators_reject (toJson : dynamic → string) (h : heap) (c : container)
    : Prop :=
  match c with
  | AnArray this =>
      rejects_consumed (WritableNativeArray.pushNull this) "Array already consumed" h
      ∧ (∀ value, rejects_consumed (WritableNativeArray.pushBoolean this value)
                    "Array already consumed" h)
      ∧ (∀ value, rejects_consumed (WritableNativeArray.pushDouble this value)
                    "Receiving array already consumed" h)
      ∧ (∀ value, ∃ msg, rejects_consumed (WritableNativeArray.pushString this value) msg h)
      ∧ (∀ other, ∃ msg, rejects_consumed (WritableNativeArray.pushArray this other) msg h)
      ∧ (∀ jmap, ∃ msg, rejects_consumed (WritableNativeArray.pushMap this jmap) msg h)
  | AMap obj =>
      (∀ key, rejects_consumed (map.writable.putNull obj key)
                "Receiving map already consumed" h)
      ∧ (∀ key value, rejects_consumed (map.writable.putBoolean obj key value)
                        "Receiving map already consumed" h)
      ∧ (∀ key value, rejects_consumed (map.writable.putDouble obj key value)
                        "Receiving map already consumed" h)
      ∧ (∀ key value, rejects_consumed (map.writable.putString obj key value)
                        "Receiving map already consumed" h)
      ∧ (∀ key value, rejects_consumed (map.writable.putArray obj key value)
                        "Receiving map already consumed" h)
      ∧ (∀ key value, rejects_consumed (map.writable.putMap obj key value)
                        "Receiving map already consumed" h)
      ∧ (∀ source, is_Some (maps h !! source) →
           ∃ msg, rejects_consumed (map.writable.mergeMap obj source) msg h)
      ∧ (∀ dest, rejects_consumed (map.writable.mergeMap dest obj)
                   "Source map already consumed" h)
      ∧ rejects_consumed (map.toString toJson obj) "Map already consumed" h
  end.

(** [r] answers on [h] as it does on the heap where [c] is flagged [b], it
    does not throw [ObjectAlreadyConsumedException], and it leaves the
    object of [c] as it is. *)
Definition ignores_flag {A} (r : JNI A) (c : container) (h : heap) : Prop :=
  (∀ b, (r (with_flag b c h)).1 = (r h).1)
  ∧ accepts_consumed r h
  ∧ match c with
    | AnArray this => arrays (r h).2 !! this = arrays h !! this
    | AMap obj => maps (r h).2 !! obj = maps h !! obj
    end.

(** No reader of the container looks at the flag. *)
Definition readers_ignore_flag (h : heap) (c : container) : Prop :=
  match c with
  | AnArray this =>
      ∀ index,
        ignores_flag (ReadableNativeArray.isNull this index) c h
        ∧ ignores_flag (ReadableNativeArray.getBoolean this index) c h
        ∧ ignores_flag (ReadableNativeArray.getDouble this index) c h
        ∧ ignores_flag (ReadableNativeArray.getString this index) c h
        ∧ ignores_flag (ReadableNativeArray.getArray this index) c h
        ∧ ignores_flag (ReadableNativeArray.getMap this index) c h
        ∧ ignores_flag (ReadableNativeArray.getType this index) c h
  | AMap obj =>
      ∀ keyName,
        ignores_flag (map.readable.hasKey obj keyName) c h
        ∧ ignores_flag (map.readable.isNull obj keyName) c h
        ∧ ignores_flag (map.readable.getBooleanKey obj keyName) c h
        ∧ ignores_flag (map.readable.getDoubleKey obj keyName) c h
        ∧ ignores_flag (map.readable.getStringKey obj keyName) c h
        ∧ ignores_flag (map.readable.getArrayKey obj keyName) c h
        ∧ ignores_flag (map.readable.getMapKey obj keyName) c h
        ∧ ignores_flag (map.readable.getValueType obj keyName) c h
  end.

(** ** Readers and the flag *)

Definition live (h : heap) (c : container) : Prop :=
  match c with
  | AnArray this => is_Some (arrays h !! this)
  | AMap obj => is_Some (maps h !! obj)
  end.

Definition same_object (c : container) (h h' : heap) : Prop :=
  match c with
  | AnArray this => arrays h' !! this = arrays h !! this
  | AMap obj => maps h' !! obj = maps h !! obj
  end.

(** A computation that commutes with a change of the flag of [c], never
    throws [ObjectAlreadyConsumedException] and keeps the object of [c]. *)
Definition flag_blind {A} (c : container) (r : JNI A) : Prop :=
  ∀ h, live h c →
    (∀ b, r (with_flag b c h) = ((r h).1, with_flag b c (r h).2))
    ∧ (∀ msg, (r h).1 ≠ Throw (JavaException ObjectAlreadyConsumedException msg))
    ∧ same_object c h (r h).2.

(** ** Ownership transfer *)

(** The four natives that move a container into another, under the names
    they are registered with. *)
Inductive transfer :=
| pushNativeArray (this other : jobject)
| pushNativeMap (this jmap : jobject)
| putNativeArray (obj : jobject) (key : string) (value : jobject)
| putNativeMap (obj : jobject) (key : string) (value : jobject).



Definition source (t : transfer) : container :=
  match t with
  | pushNativeArray _ other => AnArray other
  | pushNativeMap _ jmap => AMap jmap
  | putNativeArray _ _ value => AnArray value
  | putNativeMap _ _ value => AMap value
  end.


(** The underlying value of a container. *)
Definition value (h : heap) (c : container) : option dynamic :=
  match c with
  | AnArray this => NativeArray.array <$> arrays h !! this
  | AMap obj => NativeMap.map <$> maps h !! obj
  end.





(** ** Null references *)

(** The heap of [h] in which the array [this], or the map [obj], is an
    unconsumed container that holds [v]. *)
Definition with_value (c : container) (v : dynamic) (h : heap) : heap :=
  match c with
  | AnArray this =>
      {| arrays := <[this := {| NativeArray.isConsumed := false;
                                NativeArray.array := v |}]> (arrays h);
         maps := maps h; iterators := iterators h |}
  | AMap obj =>
      {| arrays := arrays h;
         maps := <[obj := {| NativeMap.isConsumed := false;
                             NativeMap.map := v |}]> (maps h);
         iterators := iterators h |}
  end.

(** The calls with a [NULL] reference return and leave a null value at the
    end of the array, or at the key of the map. *)
Definition null_reference_inserted (h : heap) (c : container) : Prop :=
  match c with
  | AnArray this =>
      ∀ l, value h c = Some (DArray l) →
        let h' := with_value c (DArray (l ++ [DNull])) h in
        WritableNativeArray.pushString this None h = (Ok tt, h')
        ∧ WritableNativeArray.pushArray this None h = (Ok tt, h')
        ∧ WritableNativeArray.pushMap this None h = (Ok tt, h')
        ∧ ReadableNativeArray.isNull this (Z.of_nat (length l)) h' = (Ok true, h')
  | AMap obj =>
      ∀ m key, value h c = Some (DObject m) →
        let h' := with_value c (DObject (<[key := DNull]> m)) h in
        map.writable.putString obj key None h = (Ok tt, h')
        ∧ map.writable.putArray obj key None h = (Ok tt, h')
        ∧ map.writable.putMap obj key None h = (Ok tt, h')
        ∧ map.readable.isNull obj key h' = (Ok true, h')
  end.

(** ** Merge *)

(** What the loop of [mergeMap] makes of a destination object. *)
Definition merged (dest : gmap string dynamic) (sourceItems : list (string * dynamic))
    : gmap string dynamic :=
  foldl (λ acc sourceIt, <[sourceIt.1 := sourceIt.2]> (delete sourceIt.1 acc))
    dest sourceItems.

(** ** The key iterator *)

(** The keys of an object in the order of its entries. *)
Definition keys (m : gmap string dynamic) : list string := (map_to_list m).*1.

(** The iterator [obj] stands before entry [i] of a map that holds [m]. *)
Definition positioned (h : heap) (obj : jobject) (i : nat) (m : gmap string dynamic)
    : Prop :=
  ∃ mapRef nativeMap,
    iterators h !! obj
    = Some {| ReadableNativeMapKeySeyIterator.iterator := i;
              ReadableNativeMapKeySeyIterator.mapRef := mapRef |}
    ∧ maps h !! mapRef = Some nativeMap
    ∧ NativeMap.map nativeMap = DObject m.

(** The loop of the Java side: [while (hasNextKey()) keys.add(nextKey())],
    at most [fuel] times. *)
Fixpoint drain (fuel : nat) (obj : jobject) : JNI (list string) :=
  match fuel with
  | O => mret []
  | S fuel =>
      more ← map.iterator.hasNextKey obj;
      if more : bool then
        key ← map.iterator.getNextKey obj;
        rest ← drain fuel obj;
        mret (key :: rest)
      else mret []
  end.


(** ** Hand-over to the executor *)

(** A bridge whose executor returns. *)
Definition returning_bridge : Bridge :=
  {| executeJSCall := λ _ _ _, Ok tt |}.

(** A heap with the unconsumed array [0] that holds [[true]] and the
    array [1], consumed by an earlier push. *)
Definition heap_with_arguments : heap :=
  {| arrays := <[1%nat := {| NativeArray.isConsumed := true;
                            NativeArray.array := DArray [] |}]>
                 (<[0%nat := {| NativeArray.isConsumed := false;
                               NativeArray.array := DArray [DBool true] |}]> ∅);
     maps := ∅; iterators := ∅ |}.

(** ** Batch delivery *)

(** The invocation of [call] that a method call with arguments gives. *)
Definition call_invocation (callback : jobject) (c : MethodCall) : jobject * invocation :=
  (callback,
   gCallbackMethod (moduleId c) (methodId c)
     (Some {| NativeArray.isConsumed := false; NativeArray.array := arguments c |})).

Definition has_arguments (c : MethodCall) : bool := negb (folly.isNull (arguments c)).

(** The invocations for the calls of a batch that have arguments, in the
    order of the batch. *)
Definition call_invocations (callback : jobject) (batch : list MethodCall)
    : list (jobject * invocation) :=
  call_invocation callback <$> filter (λ c, has_arguments c = true) batch.

(** The arguments of every call are null or an array. *)
Definition arguments_well_formed (batch : list MethodCall) : Prop :=
  Forall (λ c, folly.isNull (arguments c) = true ∨ folly.isArray (arguments c) = true)
    batch.

(** The callback throws on no invocation. *)
Definition never_throws (cb : ReactCallback) : Prop :=
  (∀ moduleId methodId args, call_throws cb moduleId methodId args = false)
  ∧ onBatchComplete_throws cb = false.

(** The Java side of [j] after the callback received [invocations]. *)
Definition after_receiving (invocations : list (jobject * invocation)) (j : Java) : Java :=
  {| callbackObjects := callbackObjects j;
     queueThreadObjects := queueThreadObjects j;
     ExceptionCheck := ExceptionCheck j;
     received := received j ++ invocations |}.

Definition is_call (i : jobject * invocation) : bool :=
  match i.2 with gCallbackMethod _ _ _ => true | gOnBatchCompleteMethod => false end.

(** ** Integers read as doubles *)

(** Where a number is read: an index of an array or a key of a map. *)
Inductive slot :=
| Index (this : jobject) (index : Z)
| Key (obj : jobject) (keyName : string).

(** The value stored in the slot. *)
Definition stored (s : slot) : JNI dynamic :=
  match s with
  | Index this index => ReadableNativeArray.array_at this index
  | Key obj keyName => map.readable.getMapValue obj keyName
  end.

(** [getDouble] on the slot. *)
Definition read_double (s : slot) : JNI jdouble :=
  match s with
  | Index this index => ReadableNativeArray.getDouble this index
  | Key obj keyName => map.readable.getDoubleKey obj keyName
  end.

(** ** Concrete runs *)

(** A heap with the empty array [0] and the map [1] that holds
    [{"a": true}], both unconsumed. *)
Definition heap_array_and_map : heap :=
  {| arrays := <[0%nat := {| NativeArray.isConsumed := false;
                            NativeArray.array := DArray [] |}]> ∅;
     maps := <[1%nat := {| NativeMap.isConsumed := false;
                          NativeMap.map := DObject (<["a" := DBool true]> ∅) |}]> ∅;
     iterators := ∅ |}.

(** The same after the map was pushed into the array. *)
Definition heap_map_pushed : heap :=
  (WritableNativeArray.pushMap 0%nat (Some 1%nat) heap_array_and_map).2.

(** A serializer for the runs of [toString]. *)
Definition toJson_constant : dynamic → string := λ _, "{}".

(** A heap with the destination map [0], [{"a": 1, "b": 2}], and the
    source map [1], [{"b": 3, "c": 4}]. *)
Definition heap_two_maps : heap :=
  {| arrays := ∅;
     maps := <[1%nat := {| NativeMap.isConsumed := false;
                          NativeMap.map :=
                            DObject (<["b" := DInt64 3]> (<["c" := DInt64 4]> ∅)) |}]>
               (<[0%nat := {| NativeMap.isConsumed := false;
                             NativeMap.map :=
                               DObject (<["a" := DInt64 1]> (<["b" := DInt64 2]> ∅)) |}]>
                  ∅);
     iterators := ∅ |}.


Definition map_b_c : gmap string dynamic :=
  <["b" := DInt64 3]> (<["c" := DInt64 4]> ∅).

(** A Java side with the callback [7], which throws nothing, and the
    queue [8], which has no submission yet. *)
Definition quiet_callback : ReactCallback :=
  {| call_throws := λ _ _ _, false; onBatchComplete_throws := false |}.

Definition java_callback_and_queue : Java :=
  {| callbackObjects := <[7%nat := quiet_callback]> ∅;
     queueThreadObjects := <[8%nat := []]> ∅;
     ExceptionCheck := false;
     received := [] |}.

(** The same after the callback object went away. *)
Definition java_callback_gone : Java :=
  {| callbackObjects := ∅;
     queueThreadObjects := <[8%nat := []]> ∅;
     ExceptionCheck := false;
     received := [] |}.

Definition call_with_arguments : MethodCall :=
  {| moduleId := 1; methodId := 2; arguments := DArray [DString "x"] |}.

Definition call_without_arguments : MethodCall :=
  {| moduleId := 3; methodId := 4; arguments := DNull |}.

(** A heap with the array [0] that holds the integers 7 and 2^53 + 1. *)
Definition heap_integers : heap :=
  {| arrays := <[0%nat := {| NativeArray.isConsumed := false;
                            NativeArray.array :=
                              DArray [DInt64 7; DInt64 (2 ^ 53 + 1)] |}]> ∅;
     maps := ∅; iterators := ∅ |}.

(** * Further properties: specification *)

(** ** Outcomes of readers *)

(** The call returns [a] and leaves the heap as it is. *)
Definition returns {A} (r : JNI A) (a : A) (h : heap) : Prop :=
  r h = (Ok a, h).

(** The call throws a Java exception of the class and leaves the heap as
    it is. *)
Definition throws_Java {A} (r : JNI A) (className : string) (h : heap) : Prop :=
  ∃ msg, r h = (Throw (JavaException className msg), h).


(** The map [obj] holds the object [o]; the array [this] holds [l]. *)
Definition holds_object (h : heap) (obj : jobject) (o : gmap string dynamic) : Prop :=
  ∃ m, maps h !! obj = Some m ∧ NativeMap.map m = DObject o.






(** ** Scalars written and read back *)





(** The heaps differ at most in the object of [c]. *)
Definition only_changes (c : container) (h h' : heap) : Prop :=
  iterators h' = iterators h
  ∧ match c with
    | AnArray this =>
        maps h' = maps h ∧ ∀ other, other ≠ this → arrays h' !! other = arrays h !! other
    | AMap obj =>
        arrays h' = arrays h ∧ ∀ other, other ≠ obj → maps h' !! other = maps h !! other
    end.

(** ** Maps handed out *)

(** [getMap] on the slot. *)
Definition read_map (s : slot) : JNI (nullable jobject) :=
  match s with
  | Index this index => ReadableNativeArray.getMap this index
  | Key obj keyName => map.readable.getMapKey obj keyName
  end.

(** What [getMap] makes of a stored value: null for null; for an object a
    new unconsumed map, under a handle not in use, that holds a copy, with
    all else as it was; a type error for the rest. *)
Definition hands_out_map (r : JNI (nullable jobject)) (v : dynamic) (h : heap) : Prop :=
  match v with
  | DNull => returns r None h
  | DObject o =>
      ∃ jnewMap,
        maps h !! jnewMap = None
        ∧ r h = (Ok (Some jnewMap),
                 {| arrays := arrays h;
                    maps := <[jnewMap := {| NativeMap.isConsumed := false;
                                            NativeMap.map := DObject o |}]> (maps h);
                    iterators := iterators h |})
  | _ => throws_Java r exceptions.gUnknownNativeTypeExceptionClass h
  end.

(** ** Batches on the queue *)

(** The Java side of [j] with an exception pending after the callback
    received [invocations]. *)
Definition after_throwing (invocations : list (jobject * invocation)) (j : Java) : Java :=
  {| callbackObjects := callbackObjects j;
     queueThreadObjects := queueThreadObjects j;
     ExceptionCheck := true;
     received := received j ++ invocations |}.

(** The callback throws on none of the calls. *)
Definition quiet_on (cb : ReactCallback) (batch : list MethodCall) : Prop :=
  Forall (λ c, call_throws cb (moduleId c) (methodId c)
                 (Some {| NativeArray.isConsumed := false;
                          NativeArray.array := arguments c |}) = false) batch.

(** The bridge hands over batch after batch, each by one call of
    [dispatchCallbacksToJava]. *)
Fixpoint dispatch_all (weakCallback weakCallbackQueueThread : WeakReference)
    (batches : list (list MethodCall)) : Native unit :=
  match batches with
  | [] => λ j, (Ok tt, j)
  | batch :: later =>
      λ j, match bridge.dispatchCallbacksToJava weakCallback weakCallbackQueueThread
                   batch j with
           | (Ok _, j') => dispatch_all weakCallback weakCallbackQueueThread later j'
           | r => r
           end
  end.

(** The queue thread runs its submissions, oldest first. *)
Fixpoint run_all (submitted : list NativeRunnable) : Native unit :=
  match submitted with
  | [] => λ j, (Ok tt, j)
  | jNativeRunnable :: later =>
      λ j, match runnable.run jNativeRunnable j with
           | (Ok _, j') => run_all later j'
           | r => r
           end
  end.

(** What the callback receives for a batch that is delivered whole. *)
Definition batch_invocations (callback : jobject) (batch : list MethodCall)
    : list (jobject * invocation) :=
  call_invocations callback batch ++ [(callback, gOnBatchCompleteMethod)].

(** ** Invariants of the heap *)

Module natives.

(** The natives that can change an array or a map, under the names they
    are registered with ([getArray] and [getMap] of an array and of a map
    apart), with their arguments. *)
Inductive t :=
| pushNull (this : jobject)
| pushBoolean (this : jobject) (value : bool)
| pushDouble (this : jobject) (value : jdouble)
| pushString (this : jobject) (value : nullable string)
| pushNativeArray (this : jobject) (other : nullable jobject)
| pushNativeMap (this : jobject) (jmap : nullable jobject)
| putNull (obj : jobject) (key : string)
| putBoolean (obj : jobject) (key : string) (value : bool)
| putDouble (obj : jobject) (key : string) (value : jdouble)
| putString (obj : jobject) (key : string) (value : nullable string)
| putNativeArray (obj : jobject) (key : string) (value : nullable jobject)
| putNativeMap (obj : jobject) (key : string) (value : nullable jobject)
| mergeNativeMap (obj source : jobject)
| array_getArray (this : jobject) (index : Z)
| array_getMap (this : jobject) (index : Z)
| map_getArray (obj : jobject) (keyName : string)
| map_getMap (obj : jobject) (keyName : string)
| callFunction (bridge : Bridge) (moduleId methodId : Z) (args : jobject)
| invokeCallback (bridge : Bridge) (callbackId : Z) (args : jobject).

End natives.

(** The call with its result dropped. *)
Definition discard {A} (r : JNI A) : JNI unit := _ ← r; mret tt.

Definition run_native (n : natives.t) : JNI unit :=
  match n with
  | natives.pushNull this => WritableNativeArray.pushNull this
  | natives.pushBoolean this value => WritableNativeArray.pushBoolean this value
  | natives.pushDouble this value => WritableNativeArray.pushDouble this value
  | natives.pushString this value => WritableNativeArray.pushString this value
  | natives.pushNativeArray this other => WritableNativeArray.pushArray this other
  | natives.pushNativeMap this jmap => WritableNativeArray.pushMap this jmap
  | natives.putNull obj key => map.writable.putNull obj key
  | natives.putBoolean obj key value => map.writable.putBoolean obj key value
  | natives.putDouble obj key value => map.writable.putDouble obj key value
  | natives.putString obj key value => map.writable.putString obj key value
  | natives.putNativeArray obj key value => map.writable.putArray obj key value
  | natives.putNativeMap obj key value => map.writable.putMap obj key value
  | natives.mergeNativeMap obj source => map.writable.mergeMap obj source
  | natives.array_getArray this index => discard (ReadableNativeArray.getArray this index)
  | natives.array_getMap this index => discard (ReadableNativeArray.getMap this index)
  | natives.map_getArray obj keyName => discard (map.readable.getArrayKey obj keyName)
  | natives.map_getMap obj keyName => discard (map.readable.getMapKey obj keyName)
  | natives.callFunction bridge moduleId methodId args =>
      bridge.callFunction bridge moduleId methodId args
  | natives.invokeCallback bridge callbackId args =>
      bridge.invokeCallback bridge callbackId args
  end.

(** The container whose flag a call sets when it returns: the source of a
    push or put of a container. *)
Definition consumes (n : natives.t) : option container :=
  match n with
  | natives.pushNativeArray _ (Some other) => Some (AnArray other)
  | natives.pushNativeMap _ (Some jmap) => Some (AMap jmap)
  | natives.putNativeArray _ _ (Some value) => Some (AnArray value)
  | natives.putNativeMap _ _ (Some value) => Some (AMap value)
  | _ => None
  end.

(** Every array object holds an array and every map object an object. *)
Definition well_kinded (h : heap) : Prop :=
  (∀ this a, arrays h !! this = Some a → folly.isArray (NativeArray.array a) = true)
  ∧ (∀ obj m, maps h !! obj = Some m → folly.isObject (NativeMap.map m) = true).

(** [h'] comes from [h] by changes that keep the kinds of the objects,
    keep them alive, keep the flags that are set, and set the flag of no
    container but [source]. *)
Definition evolves (source : option container) (h h' : heap) : Prop :=
  (well_kinded h → well_kinded h')
  ∧ (∀ c, live h c → live h' c)
  ∧ (∀ c, consumed h c → consumed h' c)
  ∧ (∀ c, unconsumed h c → consumed h' c → source = Some c).

(** The heap after the calls, one after the other; a call that throws
    ends alone, the later calls are made all the same. *)
Definition run_natives (ns : list natives.t) (h : heap) : heap :=
  foldl (λ h n, (run_native n h).2) h ns.

(** ** Further concrete runs *)

Definition map_a_true : gmap string dynamic := <["a" := DBool true]> ∅.


Definition map_a_b : gmap string dynamic :=
  <["a" := DInt64 1]> (<["b" := DInt64 2]> ∅).

(** A callback that throws on the calls to module 3. *)
Definition callback_throwing_on_3 : ReactCallback :=
  {| call_throws := λ moduleId _ _, moduleId =? 3; onBatchComplete_throws := false |}.

Definition java_throwing_callback : Java :=
  {| callbackObjects := <[7%nat := callback_throwing_on_3]> ∅;
     queueThreadObjects := <[8%nat := []]> ∅;
     ExceptionCheck := false;
     received := [] |}.

Definition call_to_module_3 : MethodCall :=
  {| moduleId := 3; methodId := 4; arguments := DArray [] |}.

(** * Proofs *)

(** ** Outcomes *)

Ltac jni_unfold :=
  unfold rejects_consumed,
    WritableNativeArray.pushBoolean,
    WritableNativeArray.pushDouble, WritableNativeArray.pushString,
    WritableNativeArray.pushArray, WritableNativeArray.pushMap,
    WritableNativeArray.pushNull, WritableNativeArray.array_push_back,
    map.writable.putBoolean, map.writable.putDouble,
    map.writable.putString, map.writable.putArray, map.writable.putMap,
    map.writable.putNull, map.writable.mergeMap, map.writable.map_insert, map.toString,
    exceptions.throwIfObjectAlreadyConsumed,
    extractNativeArray, extractNativeMap, extractIterator,
    setNativeArray, setNativeMap, setIterator,
    mbind, mret, JNI_bind, JNI_ret, lift, isConsumed,
    NativeArray_Consumable, NativeMap_Consumable in *.

Lemma consumed_array_rejects toJson h this :
  consumed h (AnArray this) → mutators_reject toJson h (AnArray this).
Proof.
  intros (a & Ha & Hc). cbn [mutators_reject].
  repeat split; intros;
    try match goal with v : nullable _ |- _ => destruct v end;
    try eexists; jni_unfold; rewrite Ha, Hc; reflexivity.
Qed.

Lemma consumed_map_rejects toJson h obj :
  consumed h (AMap obj) → mutators_reject toJson h (AMap obj).
Proof.
  intros (m & Hm & Hc). cbn [mutators_reject].
  repeat split; intros;
    try match goal with v : nullable _ |- _ => destruct v end;
    try (jni_unfold; rewrite Hm, Hc; reflexivity).
  - destruct H as [s Hs]. jni_unfold. rewrite Hs.
    destruct (NativeMap.isConsumed s); eexists; [reflexivity|].
    rewrite Hm, Hc. reflexivity.
Qed.

(** ** Readers and the flag *)

Lemma live_same_object c h h' : live h c → same_object c h h' → live h' c.
Proof. destruct c; cbn; intros Hl ->; done. Qed.

Lemma flag_blind_ret {A} c (a : A) : flag_blind c (mret a).
Proof. intros h _. repeat split; destruct c; done. Qed.

Lemma flag_blind_lift {A} c (r : result A) :
  (∀ msg, r ≠ Throw (JavaException ObjectAlreadyConsumedException msg)) →
  flag_blind c (lift r).
Proof. intros Hr h _. repeat split; destruct c; done. Qed.

Lemma flag_blind_bind {A B} c (r : JNI A) (k : A → JNI B) :
  flag_blind c r → (∀ a, flag_blind c (k a)) → flag_blind c (r ≫= k).
Proof.
  intros Hr Hk h Hl. destruct (Hr h Hl) as (Hb & Hx & Hs).
  unfold mbind, JNI_bind.
  assert (Hkeep : ∀ b, (let (x, h') := r (with_flag b c h) in
                      match x with
                      | Ok a => k a h'
                      | Throw e => (Throw e, h')
                      | Unspecified => (Unspecified, h')
                      end)
                   = match (r h).1 with
                     | Ok a => k a (with_flag b c (r h).2)
                     | Throw e => (Throw e, with_flag b c (r h).2)
                     | Unspecified => (Unspecified, with_flag b c (r h).2)
                     end).
  { intros b. rewrite Hb. reflexivity. }
  destruct (r h) as [[a|e|] h'] eqn:Hrh; cbn in *.
  - destruct (Hk a h' (live_same_object _ _ _ Hl Hs)) as (Hb' & Hx' & Hs').
    split; [|split].
    + intros b. rewrite Hkeep. apply Hb'.
    + apply Hx'.
    + destruct c; cbn in *; congruence.
  - split; [intros b; by rewrite Hkeep | split; [|apply Hs]].
    intros msg [= ->]. by apply (Hx msg).
  - split; [intros b; by rewrite Hkeep | split; [done | apply Hs]].
Qed.

Lemma flag_blind_try_catch {A} c (r : JNI A) (handler : exn → option (JNI A)) :
  flag_blind c r →
  (∀ e k, handler e = Some k → flag_blind c k) →
  flag_blind c (try_catch r handler).
Proof.
  intros Hr Hk h Hl. destruct (Hr h Hl) as (Hb & Hx & Hs).
  unfold try_catch.
  assert (Hkeep : ∀ b, r (with_flag b c h) = ((r h).1, with_flag b c (r h).2))
    by done.
  destruct (r h) as [[a|e|] h'] eqn:Hrh; cbn in *.
  - split; [intros b; by rewrite Hkeep | split; [apply Hx | apply Hs]].
  - destruct (handler e) as [k|] eqn:Hh.
    + destruct (Hk e k Hh h' (live_same_object _ _ _ Hl Hs)) as (Hb' & Hx' & Hs').
      split; [|split].
      * intros b. rewrite Hkeep, Hh. apply Hb'.
      * apply Hx'.
      * destruct c; cbn in *; congruence.
    + split; [intros b; by rewrite Hkeep, Hh | split; [apply Hx | apply Hs]].
  - split; [intros b; by rewrite Hkeep | split; [apply Hx | apply Hs]].
Qed.

Lemma not_consumed_class_UnexpectedNativeType :
  exceptions.gUnknownNativeTypeExceptionClass ≠ ObjectAlreadyConsumedException.
Proof. intros H. vm_compute in H. discriminate H. Qed.

Lemma at_index_not_Java d index className msg :
  folly.at_index d index ≠ Throw (JavaException className msg).
Proof.
  destruct d; cbn; try discriminate.
  destruct (_ || _); [discriminate|]. destruct (_ !! _); discriminate.
Qed.

Lemma flag_blind_array_at this index :
  flag_blind (AnArray this) (ReadableNativeArray.array_at this index).
Proof.
  intros h [a Ha]. unfold ReadableNativeArray.array_at. jni_unfold.
  cbn [with_flag arrays]. rewrite Ha. cbn. split; [|split].
  - intros b. rewrite lookup_alter_eq, Ha. cbn.
    by destruct (folly.at_index (NativeArray.array a) index).
  - intros msg.
    pose proof (at_index_not_Java (NativeArray.array a) index
                  ObjectAlreadyConsumedException msg).
    by destruct (folly.at_index (NativeArray.array a) index).
  - by destruct (folly.at_index (NativeArray.array a) index).
Qed.

Lemma flag_blind_newNativeArray c a : flag_blind c (newNativeArray a).
Proof.
  intros h Hl. unfold newNativeArray. split; [|split]; [|done|].
  - intros b. destruct c as [this|obj]; cbn; [|done].
    rewrite dom_alter_L. f_equal. f_equal.
    rewrite alter_insert_ne; [done|].
    intros ->. apply (is_fresh (dom (arrays h))). by apply elem_of_dom.
  - destruct c as [this|obj]; cbn; [|done].
    apply lookup_insert_ne. intros <-.
    apply (is_fresh (dom (arrays h))). by apply elem_of_dom.
Qed.

Lemma createReadableNativeMapWithContents_object m h :
  createReadableNativeMapWithContents (DObject m) h
  = (Ok (Some (fresh (dom (maps h)))),
     {| arrays := arrays h;
        maps := <[fresh (dom (maps h)) :=
                    {| NativeMap.isConsumed := false; NativeMap.map := DObject m |}]>
                  (maps h);
        iterators := iterators h |}).
Proof.
  unfold createReadableNativeMapWithContents, newNativeMap. jni_unfold. cbn.
  rewrite lookup_insert_eq. cbn. by rewrite insert_insert_eq.
Qed.

Lemma flag_blind_createReadableNativeMapWithContents c v :
  flag_blind c (createReadableNativeMapWithContents v).
Proof.
  destruct v;
    try (apply flag_blind_lift; intros msg [= Hc _];
         by apply not_consumed_class_UnexpectedNativeType).
  intros h Hl. rewrite createReadableNativeMapWithContents_object.
  split; [|split]; [|done|].
  - intros b. rewrite createReadableNativeMapWithContents_object.
    destruct c as [this|obj]; cbn; [done|].
    rewrite dom_alter_L. f_equal. f_equal.
    rewrite alter_insert_ne; [done|].
    intros ->. apply (is_fresh (dom (maps h))). by apply elem_of_dom.
  - destruct c as [this|obj]; cbn; [done|].
    apply lookup_insert_ne. intros <-.
    apply (is_fresh (dom (maps h))). by apply elem_of_dom.
Qed.

Lemma flag_blind_createReadableNativeArrayWithContents c v :
  flag_blind c (createReadableNativeArrayWithContents v).
Proof.
  unfold createReadableNativeArrayWithContents.
  apply flag_blind_bind.
  - apply flag_blind_lift. unfold readableNativeArrayOf.
    destruct v; cbn; try discriminate;
      intros msg [= Hc _]; by apply not_consumed_class_UnexpectedNativeType.
  - intros [a|]; [|apply flag_blind_ret].
    apply flag_blind_bind; [apply flag_blind_newNativeArray|].
    intros; apply flag_blind_ret.
Qed.

Lemma flag_blind_hasKey obj keyName :
  flag_blind (AMap obj) (map.readable.hasKey obj keyName).
Proof.
  intros h [m Hm]. unfold map.readable.hasKey. jni_unfold.
  cbn [with_flag maps]. rewrite Hm. cbn. split; [|split].
  - intros b. rewrite lookup_alter_eq, Hm. cbn.
    by destruct (NativeMap.map m).
  - intros msg. by destruct (NativeMap.map m).
  - by destruct (NativeMap.map m).
Qed.

Lemma flag_blind_getMapValue obj keyName :
  flag_blind (AMap obj) (map.readable.getMapValue obj keyName).
Proof.
  intros h [m Hm]. unfold map.readable.getMapValue, try_catch. jni_unfold.
  cbn [with_flag maps]. rewrite Hm. cbn. split; [|split].
  - intros b. rewrite lookup_alter_eq, Hm. cbn.
    destruct (NativeMap.map m) as [| | | | | |o]; try done.
    cbn. by destruct (o !! keyName).
  - intros msg.
    destruct (NativeMap.map m) as [| | | | | |o]; try done.
    cbn. destruct (o !! keyName); [done|].
    cbn. discriminate.
  - destruct (NativeMap.map m) as [| | | | | |o]; try done.
    cbn. by destruct (o !! keyName).
Qed.

Lemma flag_blind_catch_TypeError {A} c e (k : JNI A) :
  map.readable.catch_TypeError e = Some k → flag_blind c k.
Proof.
  destruct e; cbn; intros [= <-].
  apply flag_blind_lift. intros msg. discriminate.
Qed.

(** The readers are built from the value lookup and flag-blind steps. *)
Ltac flag_blind_steps :=
  repeat first
    [ apply flag_blind_ret
    | apply flag_blind_array_at
    | apply flag_blind_getMapValue
    | apply flag_blind_hasKey
    | apply flag_blind_createReadableNativeArrayWithContents
    | apply flag_blind_createReadableNativeMapWithContents
    | apply flag_blind_bind; [|intros ?]
    | apply flag_blind_try_catch; [|intros ? ?; apply flag_blind_catch_TypeError]
    | match goal with
      | |- flag_blind _ (if ?b then _ else _) => destruct b eqn:?
      | |- flag_blind _ (lift (_ ?v)) =>
          apply flag_blind_lift; intros ?; destruct v; cbn; discriminate
      end ].

Lemma array_readers_flag_blind this index :
  flag_blind (AnArray this) (ReadableNativeArray.isNull this index)
  ∧ flag_blind (AnArray this) (ReadableNativeArray.getBoolean this index)
  ∧ flag_blind (AnArray this) (ReadableNativeArray.getDouble this index)
  ∧ flag_blind (AnArray this) (ReadableNativeArray.getString this index)
  ∧ flag_blind (AnArray this) (ReadableNativeArray.getArray this index)
  ∧ flag_blind (AnArray this) (ReadableNativeArray.getMap this index)
  ∧ flag_blind (AnArray this) (ReadableNativeArray.getType this index).
Proof.
  unfold ReadableNativeArray.isNull, ReadableNativeArray.getBoolean,
    ReadableNativeArray.getDouble, ReadableNativeArray.getString,
    ReadableNativeArray.getArray, ReadableNativeArray.getMap,
    ReadableNativeArray.getType.
  repeat apply conj; flag_blind_steps.
Qed.

Lemma map_readers_flag_blind obj keyName :
  flag_blind (AMap obj) (map.readable.hasKey obj keyName)
  ∧ flag_blind (AMap obj) (map.readable.isNull obj keyName)
  ∧ flag_blind (AMap obj) (map.readable.getBooleanKey obj keyName)
  ∧ flag_blind (AMap obj) (map.readable.getDoubleKey obj keyName)
  ∧ flag_blind (AMap obj) (map.readable.getStringKey obj keyName)
  ∧ flag_blind (AMap obj) (map.readable.getArrayKey obj keyName)
  ∧ flag_blind (AMap obj) (map.readable.getMapKey obj keyName)
  ∧ flag_blind (AMap obj) (map.readable.getValueType obj keyName).
Proof.
  unfold map.readable.isNull, map.readable.getBooleanKey,
    map.readable.getDoubleKey, map.readable.getStringKey,
    map.readable.getArrayKey, map.readable.getMapKey,
    map.readable.getValueType.
  repeat apply conj; flag_blind_steps.
Qed.

Lemma flag_blind_ignores_flag {A} c (r : JNI A) h :
  live h c → flag_blind c r → ignores_flag r c h.
Proof.
  intros Hl Hr. destruct (Hr h Hl) as (Hb & Hx & Hs).
  split; [|split].
  - intros b. by rewrite Hb.
  - exact Hx.
  - destruct c; exact Hs.
Qed.

Lemma consumed_live h c : consumed h c → live h c.
Proof. destruct c; intros (x & Hx & _); cbn; rewrite Hx; by eexists. Qed.

Lemma readers_ignore_flag_live h c : live h c → readers_ignore_flag h c.
Proof.
  intros Hl. destruct c as [this|obj]; cbn [readers_ignore_flag].
  - intros index.
    pose proof (array_readers_flag_blind this index) as H.
    repeat (destruct H as [? H]).
    repeat match goal with |- ignores_flag _ _ _ ∧ _ => split end;
      by apply flag_blind_ignores_flag.
  - intros keyName.
    pose proof (map_readers_flag_blind obj keyName) as H.
    repeat (destruct H as [? H]).
    repeat match goal with |- ignores_flag _ _ _ ∧ _ => split end;
      by apply flag_blind_ignores_flag.
Qed.

(** ** Use after consumption *)

(** C1 as the code has it: on a consumed container every mutator (push,
    put, merge) and [toString] of a map throws
    [ObjectAlreadyConsumedException] and leaves the heap unchanged; the
    readers ([hasKey], [isNull], [getBoolean], [getDouble], [getString],
    [getArray], [getMap], [getType]) do not look at the flag: they answer
    from the value the container holds, never throw
    [ObjectAlreadyConsumedException], and leave the container as it is. *)
Theorem consumed_rejects_mutation_readers_ignore_flag
    (toJson : dynamic → string) (h : heap) (c : container) :
  consumed h c →
  mutators_reject toJson h c ∧ readers_ignore_flag h c.
Proof.
  intros Hc. split.
  - destruct c; [by apply consumed_array_rejects | by apply consumed_map_rejects].
  - by apply readers_ignore_flag_live, consumed_live.
Qed.

(** ** Steps of the heap *)

Ltac jni_simpl :=
  cbn [fst snd arrays maps iterators
       NativeArray.isConsumed NativeArray.array
       NativeMap.isConsumed NativeMap.map
       ReadableNativeMapKeySeyIterator.iterator
       ReadableNativeMapKeySeyIterator.mapRef
       folly.push_back folly.insert folly.erase folly.items folly.at_key
       folly.find_key folly.isNull folly.isArray folly.isObject folly.isInt
       negb fmap option_fmap option_map] in *.


Lemma at_index_pushed l v :
  folly.at_index (DArray (l ++ [v])) (Z.of_nat (length l)) = Ok v.
Proof.
  unfold folly.at_index. rewrite length_app, Nat2Z.id. cbn [length].
  rewrite (proj2 (Z.ltb_ge _ _)) by lia.
  rewrite (proj2 (Z.leb_gt _ _)) by lia.
  cbn. by rewrite list_lookup_middle.
Qed.

Lemma array_at_pushed h this a l v :
  arrays h !! this = Some a →
  NativeArray.array a = DArray (l ++ [v]) →
  ReadableNativeArray.array_at this (Z.of_nat (length l)) h = (Ok v, h).
Proof.
  intros Ha Hl. unfold ReadableNativeArray.array_at. jni_unfold.
  by rewrite Ha, Hl, at_index_pushed.
Qed.

Lemma getMapValue_inserted h obj m o key v :
  maps h !! obj = Some m →
  NativeMap.map m = DObject (<[key := v]> o) →
  map.readable.getMapValue obj key h = (Ok v, h).
Proof.
  intros Hm Ho. unfold map.readable.getMapValue, try_catch. jni_unfold.
  rewrite Hm, Ho. cbn. by rewrite lookup_insert_eq.
Qed.


Lemma bind_Ok {A B} (r : JNI A) (k : A → JNI B) h a h' :
  r h = (Ok a, h') → (r ≫= k) h = k a h'.
Proof. intros Hr. unfold mbind, JNI_bind. by rewrite Hr. Qed.

(** ** Ownership transfer *)


(** ** Null references *)

(** C9: on an unconsumed container, [pushString], [pushArray], [pushMap]
    with a null argument and [putString], [putArray], [putMap] with a null
    value return normally and insert a null value. *)
Theorem null_reference_inserts_null (h : heap) (c : container) :
  unconsumed h c → null_reference_inserted h c.
Proof.
  destruct c as [this|obj]; intros (x & Hx & Hc);
    cbn [null_reference_inserted value with_value].
  - intros l Hl. rewrite Hx in Hl. injection Hl as Hl.
    destruct x as [xc xv]. cbn in Hc, Hl. subst xc xv.
    assert (Hpush : WritableNativeArray.pushNull this h
                    = (Ok tt, with_value (AnArray this) (DArray (l ++ [DNull])) h)).
    { jni_unfold. by rewrite Hx. }
    repeat split; try exact Hpush.
    unfold ReadableNativeArray.isNull.
    erewrite bind_Ok
      by (eapply array_at_pushed; [apply lookup_insert_eq|reflexivity]).
    reflexivity.
  - intros m key Hm. rewrite Hx in Hm. injection Hm as Hm.
    destruct x as [xc xv]. cbn in Hc, Hm. subst xc xv.
    assert (Hput : map.writable.putNull obj key h
                   = (Ok tt, with_value (AMap obj) (DObject (<[key := DNull]> m)) h)).
    { jni_unfold. by rewrite Hx. }
    repeat split; try exact Hput.
    unfold map.readable.isNull.
    erewrite bind_Ok
      by (eapply getMapValue_inserted; [apply lookup_insert_eq|reflexivity]).
    reflexivity.
Qed.

(** ** Merge *)

Lemma merged_lookup sourceItems dest k :
  NoDup sourceItems.*1 →
  (∀ v, (k, v) ∈ sourceItems → merged dest sourceItems !! k = Some v)
  ∧ (k ∉ sourceItems.*1 → merged dest sourceItems !! k = dest !! k).
Proof.
  unfold merged. revert dest.
  induction sourceItems as [|[k0 v0] rest IH]; intros dest Hnd.
  - split; [intros v Hin; by apply elem_of_nil in Hin | done].
  - cbn [fmap list_fmap fst] in Hnd. apply NoDup_cons in Hnd as [Hk0 Hnd].
    cbn [foldl fst snd]. rewrite insert_delete_eq.
    destruct (IH (<[k0 := v0]> dest) Hnd) as [IHin IHout].
    split.
    + intros v [[= -> ->]|Hin]%elem_of_cons; [|by apply IHin].
      rewrite IHout by exact Hk0. apply lookup_insert_eq.
    + intros Hout. cbn [fmap list_fmap fst] in Hout.
      apply not_elem_of_cons in Hout as [Hne Hout].
      rewrite IHout by exact Hout. by apply lookup_insert_ne.
Qed.

Lemma mergeMap_loop_spec sourceItems obj h c dest :
  maps h !! obj = Some {| NativeMap.isConsumed := c; NativeMap.map := DObject dest |} →
  ∃ h', map.writable.mergeMap_loop obj sourceItems h = (Ok tt, h')
        ∧ maps h' !! obj
          = Some {| NativeMap.isConsumed := c;
                    NativeMap.map := DObject (merged dest sourceItems) |}
        ∧ (∀ o, o ≠ obj → maps h' !! o = maps h !! o)
        ∧ arrays h' = arrays h ∧ iterators h' = iterators h.
Proof.
  revert h dest. induction sourceItems as [|[k0 v0] rest IH]; intros h dest Hobj.
  - exists h. by cbn.
  - cbn [map.writable.mergeMap_loop]. jni_unfold. rewrite Hobj. jni_simpl.
    edestruct IH as (h' & Hrun & Hobj' & Hothers & Harr & Hit);
      [|rewrite Hrun].
    { jni_simpl. apply lookup_insert_eq. }
    exists h'. split; [done|]. split; [exact Hobj'|]. jni_simpl.
    split; [|done].
    intros o Ho. rewrite Hothers by done. by apply lookup_insert_ne.
Qed.


(** ** The key iterator *)

Lemma keys_length m : length (keys m) = length (map_to_list m).
Proof. unfold keys. apply length_fmap. Qed.

Lemma hasNextKey_positioned h obj i m :
  positioned h obj i m →
  map.iterator.hasNextKey obj h = (Ok (negb (i =? length (keys m))%nat), h).
Proof.
  intros (mapRef & nativeMap & Hit & Hmap & Hm).
  unfold map.iterator.hasNextKey. jni_unfold.
  rewrite Hit. jni_simpl. rewrite Hmap. jni_simpl. rewrite Hm. jni_simpl.
  by rewrite keys_length.
Qed.





(** ** Hand-over to the executor *)

Lemma callFunction_keeps_flag bridge moduleId methodId args h a :
  arrays h !! args = Some a →
  ∃ r, bridge.callFunction bridge moduleId methodId args h
       = (r, {| arrays := <[args := {| NativeArray.isConsumed := NativeArray.isConsumed a;
                                       NativeArray.array := moved_from (NativeArray.array a) |}]>
                            (arrays h);
                maps := maps h; iterators := iterators h |})
       ∧ r = executeJSCall bridge "BatchedBridge" "callFunctionReturnFlushedQueue"
               [DDouble (double_of_int moduleId); DDouble (double_of_int methodId);
                NativeArray.array a].
Proof.
  intros Ha. unfold bridge.callFunction, try_catch,
    bridge.translatePendingCppExceptionToJavaException. jni_unfold.
  rewrite Ha. jni_simpl.
  destruct (executeJSCall bridge _ _ _) as [[]|e|]; eexists; split; reflexivity.
Qed.

(** C3, the code at the failing input: [callFunction] and [invokeCallback]
    take the array of an unconsumed container without setting its flag, so
    that a later [pushNull] on the emptied container returns; and they
    take the array of a consumed container without throwing. *)
Theorem callFunction_neither_checks_nor_sets_flag :
  (∃ h', bridge.callFunction returning_bridge 3 7 0%nat heap_with_arguments = (Ok tt, h')
         ∧ unconsumed h' (AnArray 0%nat)
         ∧ value h' (AnArray 0%nat) = Some (DArray [])
         ∧ (WritableNativeArray.pushNull 0%nat h').1 = Ok tt)
  ∧ (∃ h', bridge.invokeCallback returning_bridge 5 0%nat heap_with_arguments = (Ok tt, h')
           ∧ unconsumed h' (AnArray 0%nat)
           ∧ value h' (AnArray 0%nat) = Some (DArray [])
           ∧ (WritableNativeArray.pushNull 0%nat h').1 = Ok tt)
  ∧ consumed heap_with_arguments (AnArray 1%nat)
  ∧ (bridge.callFunction returning_bridge 3 7 1%nat heap_with_arguments).1 = Ok tt
  ∧ (bridge.invokeCallback returning_bridge 5 1%nat heap_with_arguments).1 = Ok tt.
Proof.
  split; [|split; [|split; [|split]]].
  - eexists. split; [vm_compute; reflexivity|]. split; [|split].
    + eexists. split; vm_compute; reflexivity.
    + vm_compute; reflexivity.
    + vm_compute; reflexivity.
  - eexists. split; [vm_compute; reflexivity|]. split; [|split].
    + eexists. split; vm_compute; reflexivity.
    + vm_compute; reflexivity.
    + vm_compute; reflexivity.
  - eexists. split; vm_compute; reflexivity.
  - vm_compute; reflexivity.
  - vm_compute; reflexivity.
Qed.

(** ** Batch delivery *)

Lemma after_receiving_nil j : after_receiving [] j = j.
Proof. destruct j. unfold after_receiving. cbn. by rewrite app_nil_r. Qed.

Lemma after_receiving_app is1 is2 j :
  after_receiving is2 (after_receiving is1 j) = after_receiving (is1 ++ is2) j.
Proof. unfold after_receiving. cbn. by rewrite app_assoc. Qed.

Lemma makeJavaCall_null callback cb c j :
  folly.isNull (arguments c) = true →
  bridge.makeJavaCall callback cb c j = (Ok tt, j).
Proof. intros Hnull. unfold bridge.makeJavaCall. by rewrite Hnull. Qed.

Lemma makeJavaCall_array callback cb c j :
  folly.isNull (arguments c) = false →
  folly.isArray (arguments c) = true →
  call_throws cb (moduleId c) (methodId c)
    (Some {| NativeArray.isConsumed := false; NativeArray.array := arguments c |})
  = false →
  ExceptionCheck j = false →
  bridge.makeJavaCall callback cb c j
  = (Ok tt, after_receiving [call_invocation callback c] j).
Proof.
  intros Hnull Harr Hthrows Hpending.
  unfold bridge.makeJavaCall, readableNativeArrayOf, CallVoidMethod, after_receiving.
  rewrite Hnull, Harr. cbn [negb]. rewrite Hthrows, Hpending. reflexivity.
Qed.

Lemma deliver_all callback cb batch j :
  never_throws cb →
  arguments_well_formed batch →
  ExceptionCheck j = false →
  bridge.deliver callback cb batch j
  = (Ok true, after_receiving (call_invocations callback batch) j).
Proof.
  intros [Hcall _] Hwf. revert j.
  induction Hwf as [|c batch Hc _ IH]; intros j Hpending.
  - cbn. by rewrite after_receiving_nil.
  - cbn [bridge.deliver]. unfold call_invocations.
    destruct (folly.isNull (arguments c)) eqn:Hnull.
    + rewrite makeJavaCall_null by done. rewrite Hpending.
      rewrite IH by done.
      rewrite filter_cons_False; [done|].
      unfold has_arguments. rewrite Hnull. cbn. discriminate.
    + destruct Hc as [Hc|Hc]; [congruence|].
      rewrite makeJavaCall_array by done.
      cbn [ExceptionCheck after_receiving]. rewrite Hpending.
      rewrite IH by done.
      rewrite filter_cons_True by (unfold has_arguments; by rewrite Hnull).
      by rewrite after_receiving_app.
Qed.

Lemma deliver_skips_null callback cb c before rest j :
  folly.isNull (arguments c) = true →
  ExceptionCheck j = false →
  bridge.deliver callback cb (before ++ c :: rest) j
  = bridge.deliver callback cb (before ++ rest) j.
Proof.
  intros Hnull. revert j. induction before as [|c0 before IH]; intros j Hpending.
  - cbn [app bridge.deliver]. rewrite makeJavaCall_null by done.
    by rewrite Hpending.
  - cbn [app bridge.deliver].
    destruct (bridge.makeJavaCall callback cb c0 j) as [[[]|e|] j'] eqn:Hcall;
      try done.
    destruct (ExceptionCheck j') eqn:Hpending'; [done|]. by apply IH.
Qed.

(** C4 as the code has it: a batch dispatched with no exception pending
    and the queue alive is submitted to the queue as one runnable and
    nothing is delivered yet; when the runnable runs with no exception
    pending, the callback alive and throwing nothing, and every arguments
    value null or an array, the callback receives one [call] for each
    method call whose arguments are not null, with its module id, method id
    and arguments, in the order of the batch, and then [onBatchComplete]
    once. *)
Theorem batch_delivered_in_order_then_complete
    (j : Java) (weakCallback weakCallbackQueueThread : WeakReference)
    (batch : list MethodCall) (submitted : list NativeRunnable) :
  ExceptionCheck j = false →
  queueThreadObjects j !! weakCallbackQueueThread = Some submitted →
  arguments_well_formed batch →
  ∃ jNativeRunnable j1,
    bridge.dispatchCallbacksToJava weakCallback weakCallbackQueueThread batch j
    = (Ok tt, j1)
    ∧ queueThreadObjects j1 !! weakCallbackQueueThread
      = Some (submitted ++ [jNativeRunnable])
    ∧ received j1 = received j
    ∧ ∀ j2 cb,
        ExceptionCheck j2 = false →
        callbackObjects j2 !! weakCallback = Some cb →
        never_throws cb →
        runnable.run jNativeRunnable j2
        = (Ok tt,
           after_receiving
             (call_invocations weakCallback batch
              ++ [(weakCallback, gOnBatchCompleteMethod)]) j2).
Proof.
  intros Hpending Hqueue Hwf.
  exists {| weakCallback := weakCallback; calls := batch |}. eexists.
  unfold bridge.dispatchCallbacksToJava, ResolvedWeakReference_queue.
  rewrite Hpending, Hqueue. split; [reflexivity|].
  cbn [queue.enqueueNativeRunnableOnQueue queueThreadObjects received].
  split; [apply lookup_insert_eq|]. split; [reflexivity|].
  intros j2 cb Hpending2 Hcb Hquiet.
  change (runnable.run {| weakCallback := weakCallback; calls := batch |} j2)
    with (bridge.runnableFunction weakCallback batch j2).
  unfold bridge.runnableFunction, ResolvedWeakReference_callback.
  rewrite Hpending2, Hcb, deliver_all by done.
  unfold bridge.signalBatchComplete, CallVoidMethod.
  destruct Hquiet as [_ ->]. rewrite <- after_receiving_app.
  unfold after_receiving at 3. cbn. by rewrite orb_false_r.
Qed.

(** C5: a runnable whose callback is gone when it runs returns normally
    and leaves the Java side as it is: the callback receives neither [call]
    nor [onBatchComplete], and no exception is thrown or left pending. *)
Theorem batch_dropped_when_callback_gone (jNativeRunnable : NativeRunnable) (j : Java) :
  callbackObjects j !! weakCallback jNativeRunnable = None →
  runnable.run jNativeRunnable j = (Ok tt, j).
Proof.
  intros Hgone.
  unfold runnable.run, bridge.runnableFunction, ResolvedWeakReference_callback.
  rewrite Hgone. by destruct (ExceptionCheck j).
Qed.

(** C10: a method call whose arguments are null contributes nothing to the
    delivery: the runnable does with the batch what it does with the batch
    without that call.  With the callback alive and throwing nothing it
    returns, the callback receives the [call]s of the other calls in order
    and then [onBatchComplete], so fewer [call]s than the batch has method
    calls. *)
Theorem null_arguments_call_is_skipped
    (weakCallback : WeakReference) (before rest : list MethodCall)
    (c : MethodCall) (j : Java) :
  folly.isNull (arguments c) = true →
  bridge.runnableFunction weakCallback (before ++ c :: rest) j
  = bridge.runnableFunction weakCallback (before ++ rest) j
  ∧ ∀ cb,
      ExceptionCheck j = false →
      callbackObjects j !! weakCallback = Some cb →
      never_throws cb →
      arguments_well_formed (before ++ rest) →
      ∃ j', bridge.runnableFunction weakCallback (before ++ c :: rest) j = (Ok tt, j')
            ∧ received j'
              = received j ++ call_invocations weakCallback (before ++ rest)
                ++ [(weakCallback, gOnBatchCompleteMethod)]
            ∧ (length (filter (λ i, is_call i = true) (received j'))
               < length (filter (λ i, is_call i = true) (received j))
                 + length (before ++ c :: rest))%nat.
Proof.
  intros Hnull.
  assert (Hskip : bridge.runnableFunction weakCallback (before ++ c :: rest) j
                  = bridge.runnableFunction weakCallback (before ++ rest) j).
  { unfold bridge.runnableFunction.
    destruct (ExceptionCheck j) eqn:Hpending; [done|].
    destruct (ResolvedWeakReference_callback weakCallback j) as [cb|]; [|done].
    by rewrite deliver_skips_null. }
  split; [exact Hskip|].
  intros cb Hpending Hcb Hquiet Hwf. rewrite Hskip.
  unfold bridge.runnableFunction, ResolvedWeakReference_callback.
  rewrite Hpending, Hcb, deliver_all by done.
  unfold bridge.signalBatchComplete, CallVoidMethod.
  eexists. split; [reflexivity|]. cbn [received after_receiving].
  split; [by rewrite app_assoc|].
  rewrite !filter_app, !length_app. cbn [filter list_filter].
  rewrite decide_False by (cbn; discriminate). cbn [length].
  unfold call_invocations. 
  assert (length (filter (λ i, is_call i = true)
                    (call_invocation weakCallback
                       <$> filter (λ c, has_arguments c = true) (before ++ rest)))
          ≤ length (before ++ rest))%nat as Hle.
  { etransitivity; [apply length_filter|].
    rewrite length_fmap. apply length_filter. }
  rewrite !length_app in *. cbn [length]. lia.
Qed.

(** ** Integers read as doubles *)

Lemma digits2_pos_iter_xO p k :
  digits2_pos (Pos.iter xO p k) = (digits2_pos p + k)%positive.
Proof.
  induction k as [|k IH] using Pos.peano_ind.
  - cbn. lia.
  - rewrite Pos.iter_succ. cbn [digits2_pos]. rewrite IH. lia.
Qed.

Lemma Zpos_iter_xO p k : Zpos (Pos.iter xO p k) = Zpos p * 2 ^ Zpos k.
Proof.
  induction k as [|k IH] using Pos.peano_ind.
  - cbn. lia.
  - rewrite Pos.iter_succ, (Pos2Z.inj_xO (Pos.iter xO p k)), IH, Pos2Z.inj_succ, Z.pow_succ_r by lia.
    ring.
Qed.

Lemma digits2_pos_bounds p :
  2 ^ (Zpos (digits2_pos p) - 1) <= Zpos p < 2 ^ Zpos (digits2_pos p).
Proof.
  induction p as [p IH|p IH|]; cbn [digits2_pos].
  - rewrite Pos2Z.inj_succ, (Pos2Z.inj_xI p).
    replace (Z.succ (Zpos (digits2_pos p)) - 1) with (Z.succ (Zpos (digits2_pos p) - 1)) by lia.
    rewrite !Z.pow_succ_r by lia.
    generalize dependent (2 ^ (Zpos (digits2_pos p) - 1)).
    generalize dependent (2 ^ Zpos (digits2_pos p)). intros; lia.
  - rewrite Pos2Z.inj_succ, (Pos2Z.inj_xO p).
    replace (Z.succ (Zpos (digits2_pos p)) - 1) with (Z.succ (Zpos (digits2_pos p) - 1)) by lia.
    rewrite !Z.pow_succ_r by lia.
    generalize dependent (2 ^ (Zpos (digits2_pos p) - 1)).
    generalize dependent (2 ^ Zpos (digits2_pos p)). intros; lia.
  - cbn. lia.
Qed.

Lemma digits2_pos_le_53 p : Zpos p < 2 ^ 53 -> Zpos (digits2_pos p) <= 53.
Proof.
  intros Hp. destruct (digits2_pos_bounds p) as [Hlo _].
  destruct (Z_le_gt_dec (Zpos (digits2_pos p)) 53) as [|Hgt]; [done|].
  exfalso. assert (2 ^ 53 <= 2 ^ (Zpos (digits2_pos p) - 1)).
  { apply Z.pow_le_mono_r; lia. }
  lia.
Qed.

Lemma binary_round_small s p :
  Zpos p < 2 ^ 53 ->
  exists m e, binary_round 53 1024 s p 0 = S754_finite s m e
    /\ -52 <= e <= 0 /\ Zpos m = Zpos p * 2 ^ (- e).
Proof.
  intros Hp. pose proof (digits2_pos_le_53 p Hp) as Hd.
  unfold binary_round, shl_align, fexp, emin.
  set (d := digits2_pos p) in *.
  assert (0 < Zpos d) by lia.
  replace (Z.max (Zpos d + 0 - 53) (3 - 1024 - 53)) with (Zpos d - 53) by lia.
  destruct (Zpos d - 53 - 0) as [|k|k] eqn:Hk; try lia.
  - (* d = 53 *)
    exists p, 0. split; [|split; [lia | cbn; lia]].
    unfold binary_round_aux, shr_fexp, Zdigits2, fexp, emin. fold d.
    replace (Z.max (Zpos d + 0 - 53) (3 - 1024 - 53) - 0) with 0 by lia.
    cbn [shr shr_record_of_loc shr_m loc_of_shr_record round_nearest_even Zdigits2].
    fold d. replace (Z.max (Zpos d + 0 - 53) (3 - 1024 - 53) - 0) with 0 by lia.
    cbn. reflexivity.
  - exists (Pos.iter xO p k), (Zpos d - 53). split; [|split].
    + unfold binary_round_aux, shr_fexp, Zdigits2, fexp, emin.
      rewrite digits2_pos_iter_xO. fold d.
      replace (Z.max (Zpos (d + k) + (Zpos d - 53) - 53) (3 - 1024 - 53) - (Zpos d - 53)) with 0 by lia.
      cbn [shr shr_record_of_loc shr_m loc_of_shr_record round_nearest_even Zdigits2].
      rewrite digits2_pos_iter_xO. fold d.
      replace (Z.max (Zpos (d + k) + (Zpos d - 53) - 53) (3 - 1024 - 53) - (Zpos d - 53)) with 0 by lia.
      cbn [shr shr_m].
      replace (Zpos d - 53 <=? 1024 - 53) with true by (symmetry; apply Z.leb_le; lia).
      reflexivity.
    + lia.
    + rewrite Zpos_iter_xO. f_equal. f_equal. lia.
Qed.

Lemma double_of_int_exact n :
  Z.abs n <= 2 ^ 53 → double_is_int (double_of_int n) n = true.
Proof.
  intros Hn. destruct (Z.eq_dec (Z.abs n) (2 ^ 53)) as [Heq|Hne].
  - assert (n = 2 ^ 53 ∨ n = - 2 ^ 53) as [->| ->] by lia; by vm_compute.
  - destruct n as [|p|p]; [done| |].
    + unfold double_of_int, binary_normalize.
      destruct (binary_round_small false p) as (m' & e' & -> & He' & Hm'); [lia|].
      unfold double_is_int, cond_Zopp.
      destruct (Z.ltb_spec e' 0); apply Z.eqb_eq; [exact Hm'|].
      replace e' with 0 in * by lia. lia.
    + unfold double_of_int, binary_normalize.
      destruct (binary_round_small true p) as (m' & e' & -> & He' & Hm'); [lia|].
      unfold double_is_int, cond_Zopp.
      destruct (Z.ltb_spec e' 0); apply Z.eqb_eq.
      * change (Zneg p) with (- Zpos p). rewrite Hm'. ring.
      * replace e' with 0 in * by lia. lia.
Qed.

Lemma stored_keeps_heap s h : (stored s h).2 = h.
Proof.
  destruct s as [this index|obj keyName]; cbn [stored].
  - unfold ReadableNativeArray.array_at. jni_unfold.
    by destruct (arrays h !! this).
  - unfold map.readable.getMapValue, try_catch. jni_unfold.
    destruct (maps h !! obj) as [m|]; [|done].
    destruct (folly.at_key (NativeMap.map m) keyName) as [v|[]|]; done.
Qed.

(** C8 as the code has it: where the stored value is an integer,
    [getDouble] on an array index or on a map key returns, with the
    conversion of the integer to [double], and changes nothing; it throws
    no type mismatch.  The conversion is exact for an integer of
    magnitude at most 2^53 (integer 7 yields 7.0). *)
Theorem integer_read_as_double (h : heap) (s : slot) (n : Z) :
  (stored s h).1 = Ok (DInt64 n) →
  read_double s h = (Ok (double_of_int n), h)
  ∧ (Z.abs n ≤ 2 ^ 53 → double_is_int (double_of_int n) n = true).
Proof.
  intros Hstored. split; [|apply double_of_int_exact].
  pose proof (stored_keeps_heap s h) as Hheap.
  destruct (stored s h) as [r h'] eqn:Hs. cbn in Hstored, Hheap. subst r h'.
  destruct s as [this index|obj keyName]; cbn [stored read_double] in *.
  - unfold ReadableNativeArray.getDouble. by erewrite bind_Ok by exact Hs.
  - unfold map.readable.getDoubleKey. by erewrite bind_Ok by exact Hs.
Qed.

(** ** Concrete runs *)

(** C1 fails for the readers: the map consumed by a push answers [hasKey]
    instead of throwing [ObjectAlreadyConsumedException]. *)
Lemma consumed_map_answers_hasKey :
  consumed heap_map_pushed (AMap 1%nat)
  ∧ map.readable.hasKey 1%nat "a" heap_map_pushed = (Ok false, heap_map_pushed)
  ∧ ¬ ∃ msg, rejects_consumed (map.readable.hasKey 1%nat "a") msg heap_map_pushed.
Proof.
  assert (Hrun : map.readable.hasKey 1%nat "a" heap_map_pushed
                 = (Ok false, heap_map_pushed)) by (vm_compute; reflexivity).
  split; [|split; [exact Hrun|]].
  - eexists. split; vm_compute; reflexivity.
  - intros [msg Hmsg]. unfold rejects_consumed in Hmsg.
    rewrite Hrun in Hmsg. discriminate Hmsg.
Qed.

Lemma consumed_rejects_mutation_readers_ignore_flag_witness :
  consumed heap_map_pushed (AMap 1%nat)
  ∧ mutators_reject toJson_constant heap_map_pushed (AMap 1%nat)
  ∧ readers_ignore_flag heap_map_pushed (AMap 1%nat).
Proof.
  assert (Hc : consumed heap_map_pushed (AMap 1%nat))
    by (eexists; split; vm_compute; reflexivity).
  split; [exact Hc|].
  exact (consumed_rejects_mutation_readers_ignore_flag
           toJson_constant heap_map_pushed (AMap 1%nat) Hc).
Defined.


Lemma null_reference_inserts_null_witness :
  unconsumed heap_array_and_map (AnArray 0%nat)
  ∧ null_reference_inserted heap_array_and_map (AnArray 0%nat).
Proof.
  assert (Hu : unconsumed heap_array_and_map (AnArray 0%nat))
    by (eexists; split; vm_compute; reflexivity).
  split; [exact Hu|].
  exact (null_reference_inserts_null heap_array_and_map (AnArray 0%nat) Hu).
Defined.



(** C4 fails for a call without arguments: the batch of one such call is
    submitted and run with callback and queue alive, and the callback
    receives [onBatchComplete] and no [call]. *)
Lemma batch_of_null_call_delivers_no_call :
  let submission :=
    bridge.dispatchCallbacksToJava 7%nat 8%nat [call_without_arguments]
      java_callback_and_queue in
  let jNativeRunnable :=
    {| weakCallback := 7%nat; calls := [call_without_arguments] |} in
  let delivery := runnable.run jNativeRunnable submission.2 in
  submission.1 = Ok tt
  ∧ queueThreadObjects submission.2 !! 8%nat = Some [jNativeRunnable]
  ∧ delivery.1 = Ok tt
  ∧ received delivery.2 = [(7%nat, gOnBatchCompleteMethod)]
  ∧ length (filter (λ i, is_call i = true) (received delivery.2))
    ≠ length [call_without_arguments].
Proof.
  cbv zeta. repeat split; try (vm_compute; reflexivity).
  vm_compute. discriminate.
Qed.

Lemma batch_delivered_in_order_then_complete_witness :
  let batch := [call_with_arguments; call_without_arguments] in
  let jNativeRunnable := {| weakCallback := 7%nat; calls := batch |} in
  let j1 := queue.enqueueNativeRunnableOnQueue 8%nat [] jNativeRunnable
              java_callback_and_queue in
  bridge.dispatchCallbacksToJava 7%nat 8%nat batch java_callback_and_queue = (Ok tt, j1)
  ∧ runnable.run jNativeRunnable j1
    = (Ok tt,
       after_receiving
         [(7%nat, gCallbackMethod 1 2
                    (Some {| NativeArray.isConsumed := false;
                             NativeArray.array := DArray [DString "x"] |}));
          (7%nat, gOnBatchCompleteMethod)] j1).
Proof.
  intros batch jNativeRunnable j1.
  destruct (batch_delivered_in_order_then_complete java_callback_and_queue
              7%nat 8%nat batch [])
    as (r & j1' & Hdispatch & Hqueue & _ & Hrun).
  - reflexivity.
  - vm_compute. reflexivity.
  - constructor; [right; reflexivity|].
    constructor; [left; reflexivity|]. constructor.
  - assert (Hj1 : bridge.dispatchCallbacksToJava 7%nat 8%nat batch
                    java_callback_and_queue = (Ok tt, j1))
      by (vm_compute; reflexivity).
    split; [exact Hj1|].
    rewrite Hj1 in Hdispatch. injection Hdispatch as Hj1'. subst j1'.
    vm_compute in Hqueue. injection Hqueue as Hr. subst r.
    assert (Hquiet : never_throws quiet_callback)
      by (split; [intros; reflexivity | reflexivity]).
    assert (Halive : callbackObjects j1 !! 7%nat = Some quiet_callback)
      by (vm_compute; reflexivity).
    exact (Hrun j1 quiet_callback eq_refl Halive Hquiet).
Defined.

Lemma batch_dropped_when_callback_gone_witness :
  runnable.run {| weakCallback := 7%nat;
                  calls := [call_with_arguments; call_without_arguments] |}
    java_callback_gone
  = (Ok tt, java_callback_gone).
Proof.
  apply (batch_dropped_when_callback_gone
           {| weakCallback := 7%nat;
              calls := [call_with_arguments; call_without_arguments] |}
           java_callback_gone).
  vm_compute. reflexivity.
Defined.

Lemma null_arguments_call_is_skipped_witness :
  bridge.runnableFunction 7%nat
    ([call_with_arguments] ++ call_without_arguments :: [call_with_arguments])
    java_callback_and_queue
  = bridge.runnableFunction 7%nat ([call_with_arguments] ++ [call_with_arguments])
      java_callback_and_queue
  ∧ ∃ j', bridge.runnableFunction 7%nat
            ([call_with_arguments] ++ call_without_arguments :: [call_with_arguments])
            java_callback_and_queue
          = (Ok tt, j')
          ∧ received j'
            = received java_callback_and_queue
              ++ call_invocations 7%nat ([call_with_arguments] ++ [call_with_arguments])
              ++ [(7%nat, gOnBatchCompleteMethod)]
          ∧ (length (filter (λ i, is_call i = true) (received j'))
             < length (filter (λ i, is_call i = true) (received java_callback_and_queue))
               + length ([call_with_arguments] ++ call_without_arguments
                                                  :: [call_with_arguments]))%nat.
Proof.
  destruct (null_arguments_call_is_skipped 7%nat [call_with_arguments]
              [call_with_arguments] call_without_arguments java_callback_and_queue)
    as [Hskip Hrun]; [reflexivity|].
  split; [exact Hskip|].
  apply (Hrun quiet_callback).
  - reflexivity.
  - vm_compute. reflexivity.
  - split; [intros; reflexivity | reflexivity].
  - constructor; [right; reflexivity|].
    constructor; [right; reflexivity|]. constructor.
Defined.

(** C8 fails above 2^53: the integer 2^53 + 1 is read as the double
    2^53. *)
Lemma large_integer_read_inexactly :
  (stored (Index 0%nat 1) heap_integers).1 = Ok (DInt64 (2 ^ 53 + 1))
  ∧ read_double (Index 0%nat 1) heap_integers
    = (Ok (S754_finite false 4503599627370496 1), heap_integers)
  ∧ double_is_int (S754_finite false 4503599627370496 1) (2 ^ 53 + 1) = false
  ∧ double_is_int (S754_finite false 4503599627370496 1) (2 ^ 53) = true.
Proof. repeat split; vm_compute; reflexivity. Qed.

Lemma integer_read_as_double_witness :
  (stored (Index 0%nat 0) heap_integers).1 = Ok (DInt64 7)
  ∧ read_double (Index 0%nat 0) heap_integers = (Ok (double_of_int 7), heap_integers)
  ∧ double_is_int (double_of_int 7) 7 = true.
Proof.
  assert (Hs : (stored (Index 0%nat 0) heap_integers).1 = Ok (DInt64 7))
    by (vm_compute; reflexivity).
  split; [exact Hs|].
  destruct (integer_read_as_double heap_integers (Index 0%nat 0) 7 Hs)
    as [Hread Hexact].
  split; [exact Hread|]. apply Hexact. vm_compute. discriminate.
Defined.

(** * Further properties: proofs *)

(** ** Readers by the stored value *)

Lemma bind_Throw {A B} (r : JNI A) (k : A → JNI B) h e h' :
  r h = (Throw e, h') → (r ≫= k) h = (Throw e, h').
Proof. intros Hr. unfold mbind, JNI_bind. by rewrite Hr. Qed.





Lemma getMapValue_missing h obj o keyName :
  holds_object h obj o → o !! keyName = None →
  throws_Java (map.readable.getMapValue obj keyName)
    map.readable.gNoSuchKeyExceptionClass h.
Proof.
  intros (m & Hm & Ho) Hv.
  unfold throws_Java, map.readable.getMapValue, try_catch. jni_unfold.
  rewrite Hm, Ho. cbn. rewrite Hv. by eexists.
Qed.

Lemma hasKey_holds h obj o keyName :
  holds_object h obj o →
  returns (map.readable.hasKey obj keyName) (bool_decide (is_Some (o !! keyName))) h.
Proof.
  intros (m & Hm & Ho). unfold returns, map.readable.hasKey. jni_unfold.
  by rewrite Hm, Ho.
Qed.

(** X1: on a key that the map does not have, [hasKey] answers false and
    every getter throws [NoSuchKeyException]; nothing changes. *)
Theorem missing_key_throws_NoSuchKey
    (h : heap) (obj : jobject) (o : gmap string dynamic) (keyName : string) :
  holds_object h obj o →
  o !! keyName = None →
  returns (map.readable.hasKey obj keyName) false h
  ∧ throws_Java (map.readable.isNull obj keyName) map.readable.gNoSuchKeyExceptionClass h
  ∧ throws_Java (map.readable.getBooleanKey obj keyName)
      map.readable.gNoSuchKeyExceptionClass h
  ∧ throws_Java (map.readable.getDoubleKey obj keyName)
      map.readable.gNoSuchKeyExceptionClass h
  ∧ throws_Java (map.readable.getStringKey obj keyName)
      map.readable.gNoSuchKeyExceptionClass h
  ∧ throws_Java (map.readable.getArrayKey obj keyName)
      map.readable.gNoSuchKeyExceptionClass h
  ∧ throws_Java (map.readable.getMapKey obj keyName)
      map.readable.gNoSuchKeyExceptionClass h
  ∧ throws_Java (map.readable.getValueType obj keyName)
      map.readable.gNoSuchKeyExceptionClass h.
Proof.
  intros Hobj Hmiss.
  destruct (getMapValue_missing h obj o keyName Hobj Hmiss) as [msg Hthrow].
  split.
  { pose proof (hasKey_holds h obj o keyName Hobj) as Hhas.
    rewrite Hmiss in Hhas. exact Hhas. }
  unfold map.readable.isNull, map.readable.getBooleanKey,
    map.readable.getDoubleKey, map.readable.getStringKey,
    map.readable.getArrayKey, map.readable.getMapKey,
    map.readable.getValueType.
  repeat split; exists msg;
    try (by apply bind_Throw).
  unfold try_catch. by rewrite (bind_Throw _ _ _ _ _ Hthrow).
Qed.






(** X5: the type tag separates the kinds of value, except that an integer
    and a double are both a Number. *)
Theorem getType_separates_kinds (t1 t2 : Type_) :
  type.getType t1 = type.getType t2
  ↔ t1 = t2 ∨ (t1 = DOUBLE ∧ t2 = INT64) ∨ (t1 = INT64 ∧ t2 = DOUBLE).
Proof.
  split.
  - destruct t1, t2; cbn; intros H; try discriminate H; auto.
  - intros [->|[[-> ->]|[-> ->]]]; reflexivity.
Qed.

(** ** Scalars written and read back *)



(** ** Maps handed out *)

Lemma stored_Ok_keeps_heap s h v h' : stored s h = (Ok v, h') → h' = h.
Proof.
  intros Hs. pose proof (stored_keeps_heap s h) as Hk.
  rewrite Hs in Hk. exact Hk.
Qed.

(** X8: [getMap] on an array index or on a map key that holds null
    returns null; for an object it returns a new unconsumed map that holds
    the object, under a handle not in use, and leaves every existing
    object as it is; for any other value it throws
    [UnexpectedNativeTypeException]. *)
Theorem getMap_hands_out_copy (h : heap) (s : slot) (v : dynamic) :
  (stored s h).1 = Ok v →
  hands_out_map (read_map s) v h.
Proof.
  intros Hv. destruct (stored s h) as [r h'] eqn:Hs. cbn in Hv. subst r.
  pose proof (stored_Ok_keeps_heap s h v h' Hs) as ->.
  assert (Hread : read_map s h = createReadableNativeMapWithContents v h).
  { destruct s; cbn [read_map stored] in *;
      [unfold ReadableNativeArray.getMap | unfold map.readable.getMapKey];
      by rewrite (bind_Ok _ _ _ _ _ Hs). }
  unfold hands_out_map, returns, throws_Java. rewrite Hread.
  destruct v; try (by eexists); try reflexivity.
  rewrite createReadableNativeMapWithContents_object.
  eexists. split; [|reflexivity].
  apply not_elem_of_dom, is_fresh.
Qed.

(** ** A whole iteration *)

Lemma initialize_positioned h obj nativeMapObj o :
  holds_object h nativeMapObj o →
  ∃ h', map.iterator.initialize obj nativeMapObj h = (Ok tt, h')
        ∧ positioned h' obj 0 o
        ∧ arrays h' = arrays h ∧ maps h' = maps h.
Proof.
  intros (m & Hm & Ho). unfold map.iterator.initialize. jni_unfold.
  rewrite Hm, Ho. jni_simpl. eexists. split; [reflexivity|].
  split; [|done]. exists nativeMapObj, m. jni_simpl.
  by rewrite lookup_insert_eq.
Qed.



(** ** Merge as a union *)

Lemma merged_is_union (A B : gmap string dynamic) :
  merged A (map_to_list B) = B ∪ A.
Proof.
  apply map_eq. intros k.
  destruct (merged_lookup (map_to_list B) A k (NoDup_fst_map_to_list B))
    as [Hin Hout].
  destruct (B !! k) as [v|] eqn:Hk.
  - rewrite (Hin v) by (by apply elem_of_map_to_list).
    symmetry. by apply lookup_union_Some_l.
  - rewrite Hout.
    + symmetry. by rewrite lookup_union_r.
    + intros ((k' & v) & -> & Hin')%list_elem_of_fmap.
      apply elem_of_map_to_list in Hin'. cbn in Hk. congruence.
Qed.

Lemma mergeMap_union h obj source A B :
  obj ≠ source →
  maps h !! obj = Some {| NativeMap.isConsumed := false; NativeMap.map := DObject A |} →
  maps h !! source = Some {| NativeMap.isConsumed := false; NativeMap.map := DObject B |} →
  ∃ h', map.writable.mergeMap obj source h = (Ok tt, h')
        ∧ maps h' !! obj
          = Some {| NativeMap.isConsumed := false; NativeMap.map := DObject (B ∪ A) |}
        ∧ (∀ other, other ≠ obj → maps h' !! other = maps h !! other)
        ∧ arrays h' = arrays h ∧ iterators h' = iterators h.
Proof.
  intros Hne HA HB.
  destruct (mergeMap_loop_spec (map_to_list B) obj h false A HA)
    as (h' & Hrun & Hobj & Hothers & Harr & Hit).
  exists h'. rewrite merged_is_union in Hobj.
  split; [|done].
  jni_unfold. rewrite HB. jni_simpl. rewrite HA. jni_simpl.
  rewrite decide_False by exact Hne. jni_simpl. exact Hrun.
Qed.

(** X10: a merge of the unconsumed map B into the unconsumed map A, a
    different object, leaves in A the union of the two objects in which B
    wins, and changes nothing else; a second merge of B changes nothing
    any more, and a merge of an empty B leaves the value of A as it is. *)
Theorem merge_is_union_and_idempotent
    (h : heap) (obj source : jobject) (A B : gmap string dynamic) :
  obj ≠ source →
  maps h !! obj = Some {| NativeMap.isConsumed := false; NativeMap.map := DObject A |} →
  maps h !! source = Some {| NativeMap.isConsumed := false; NativeMap.map := DObject B |} →
  ∃ h1 h2,
    map.writable.mergeMap obj source h = (Ok tt, h1)
    ∧ maps h1 !! obj
      = Some {| NativeMap.isConsumed := false; NativeMap.map := DObject (B ∪ A) |}
    ∧ only_changes (AMap obj) h h1
    ∧ map.writable.mergeMap obj source h1 = (Ok tt, h2)
    ∧ maps h2 !! obj = maps h1 !! obj
    ∧ (B = ∅ → maps h1 !! obj = maps h !! obj).
Proof.
  intros Hne HA HB.
  destruct (mergeMap_union h obj source A B Hne HA HB)
    as (h1 & Hrun1 & Hobj1 & Hothers1 & Harr1 & Hit1).
  assert (HB1 : maps h1 !! source
                = Some {| NativeMap.isConsumed := false; NativeMap.map := DObject B |}).
  { rewrite Hothers1 by done. exact HB. }
  destruct (mergeMap_union h1 obj source (B ∪ A) B Hne Hobj1 HB1)
    as (h2 & Hrun2 & Hobj2 & _).
  exists h1, h2. split; [exact Hrun1|]. split; [exact Hobj1|].
  split; [by split|]. split; [exact Hrun2|]. split.
  - rewrite Hobj2, Hobj1. by rewrite (assoc (∪)), (idemp (∪)).
  - intros ->. rewrite Hobj1, HA. by rewrite (left_id ∅ (∪)).
Qed.

(** ** Batches on the queue *)

Lemma deliver_until_exception callback cb before c rest j :
  ExceptionCheck j = false →
  arguments_well_formed (before ++ [c]) →
  has_arguments c = true →
  quiet_on cb before →
  call_throws cb (moduleId c) (methodId c)
    (Some {| NativeArray.isConsumed := false; NativeArray.array := arguments c |})
  = true →
  bridge.deliver callback cb (before ++ c :: rest) j
  = (Ok false, after_throwing (call_invocations callback (before ++ [c])) j).
Proof.
  intros Hpending Hwf Hargs Hquiet Hthrows. revert j Hpending Hwf.
  induction Hquiet as [|c0 before Hc0 _ IH]; intros j Hpending Hwf.
  - cbn [app bridge.deliver] in *. apply Forall_cons in Hwf as [Hc _].
    unfold has_arguments in Hargs. apply negb_true_iff in Hargs.
    destruct Hc as [Hc|Hc]; [congruence|].
    unfold bridge.makeJavaCall, readableNativeArrayOf, CallVoidMethod.
    rewrite Hargs, Hc. cbn [negb ExceptionCheck]. rewrite Hthrows, Hpending.
    cbn [orb]. unfold after_throwing, call_invocations, call_invocation.
    rewrite filter_cons_True by (unfold has_arguments; by rewrite Hargs).
    reflexivity.
  - cbn [app bridge.deliver] in *. apply Forall_cons in Hwf as [Hc Hwf].
    unfold call_invocations.
    destruct (folly.isNull (arguments c0)) eqn:Hnull.
    + rewrite makeJavaCall_null by done. rewrite Hpending.
      rewrite IH by done.
      rewrite filter_cons_False; [done|].
      unfold has_arguments. rewrite Hnull. cbn. discriminate.
    + destruct Hc as [Hc|Hc]; [congruence|].
      rewrite makeJavaCall_array by done.
      cbn [ExceptionCheck after_receiving]. rewrite Hpending.
      rewrite IH by done.
      rewrite filter_cons_True by (unfold has_arguments; by rewrite Hnull).
      unfold after_throwing, after_receiving. cbn. by rewrite <- app_assoc.
Qed.

(** X11: when the callback throws on a call of the batch, and on none
    before it, the runnable returns after that call: the callback has
    received the calls up to it, none of the later calls and no
    [onBatchComplete], and the exception is left pending. *)
Theorem delivery_stops_at_exception
    (weakCallback : WeakReference) (cb : ReactCallback)
    (before rest : list MethodCall) (c : MethodCall) (j : Java) :
  ExceptionCheck j = false →
  callbackObjects j !! weakCallback = Some cb →
  arguments_well_formed (before ++ [c]) →
  has_arguments c = true →
  quiet_on cb before →
  call_throws cb (moduleId c) (methodId c)
    (Some {| NativeArray.isConsumed := false; NativeArray.array := arguments c |})
  = true →
  bridge.runnableFunction weakCallback (before ++ c :: rest) j
  = (Ok tt, after_throwing (call_invocations weakCallback (before ++ [c])) j).
Proof.
  intros Hpending Hcb Hwf Hargs Hquiet Hthrows.
  unfold bridge.runnableFunction, ResolvedWeakReference_callback.
  rewrite Hpending, Hcb.
  by rewrite (deliver_until_exception weakCallback cb before c rest j).
Qed.

Lemma runnableFunction_quiet weakCallback cb batch j :
  ExceptionCheck j = false →
  callbackObjects j !! weakCallback = Some cb →
  never_throws cb →
  arguments_well_formed batch →
  bridge.runnableFunction weakCallback batch j
  = (Ok tt, after_receiving (batch_invocations weakCallback batch) j).
Proof.
  intros Hpending Hcb Hquiet Hwf.
  unfold bridge.runnableFunction, ResolvedWeakReference_callback.
  rewrite Hpending, Hcb, deliver_all by done.
  unfold bridge.signalBatchComplete, CallVoidMethod, batch_invocations.
  destruct Hquiet as [_ ->]. rewrite <- after_receiving_app.
  unfold after_receiving at 3. cbn. by rewrite orb_false_r.
Qed.

Lemma dispatch_all_enqueues weakCallback weakCallbackQueueThread batches j submitted :
  ExceptionCheck j = false →
  queueThreadObjects j !! weakCallbackQueueThread = Some submitted →
  ∃ j', dispatch_all weakCallback weakCallbackQueueThread batches j = (Ok tt, j')
        ∧ queueThreadObjects j' !! weakCallbackQueueThread
          = Some (submitted
                  ++ ((λ batch, {| weakCallback := weakCallback; calls := batch |})
                        <$> batches))
        ∧ callbackObjects j' = callbackObjects j
        ∧ ExceptionCheck j' = false
        ∧ received j' = received j.
Proof.
  revert j submitted. induction batches as [|batch later IH];
    intros j submitted Hpending Hqueue.
  - exists j. cbn. by rewrite app_nil_r.
  - cbn [dispatch_all]. unfold bridge.dispatchCallbacksToJava,
      ResolvedWeakReference_queue. rewrite Hpending, Hqueue.
    edestruct (IH (queue.enqueueNativeRunnableOnQueue weakCallbackQueueThread submitted
                     {| weakCallback := weakCallback; calls := batch |} j))
      as (j' & Hrun & Hq & Hcb & Hp & Hr).
    + exact Hpending.
    + cbn. apply lookup_insert_eq.
    + exists j'. split; [exact Hrun|]. cbn [fmap list_fmap].
      rewrite Hq, <- app_assoc. done.
Qed.

Lemma run_all_quiet weakCallback cb batches j :
  ExceptionCheck j = false →
  callbackObjects j !! weakCallback = Some cb →
  never_throws cb →
  Forall arguments_well_formed batches →
  run_all ((λ batch, {| weakCallback := weakCallback; calls := batch |}) <$> batches) j
  = (Ok tt, after_receiving (concat (batch_invocations weakCallback <$> batches)) j).
Proof.
  intros Hpending Hcb Hquiet Hwf. revert j Hpending Hcb.
  induction Hwf as [|batch later Hbatch _ IH]; intros j Hpending Hcb.
  - cbn. by rewrite after_receiving_nil.
  - cbn [fmap list_fmap run_all concat].
    change (runnable.run {| weakCallback := weakCallback; calls := batch |} j)
      with (bridge.runnableFunction weakCallback batch j).
    rewrite (runnableFunction_quiet weakCallback cb batch j) by done.
    rewrite IH by done. by rewrite after_receiving_app.
Qed.

(** X12: batches handed over one after the other, with no exception
    pending and the queue alive, are submitted to the queue in that order,
    behind what it holds, and nothing is delivered yet; when the queue then
    runs them in order, with the callback alive and throwing nothing, the
    callback receives batch after batch, each one whole and closed by its
    [onBatchComplete] before the next begins. *)
Theorem batches_are_delivered_first_in_first_out
    (weakCallback weakCallbackQueueThread : WeakReference)
    (batches : list (list MethodCall)) (cb : ReactCallback) (j : Java)
    (submitted : list NativeRunnable) :
  ExceptionCheck j = false →
  queueThreadObjects j !! weakCallbackQueueThread = Some submitted →
  callbackObjects j !! weakCallback = Some cb →
  never_throws cb →
  Forall arguments_well_formed batches →
  ∃ j1 runnables,
    dispatch_all weakCallback weakCallbackQueueThread batches j = (Ok tt, j1)
    ∧ queueThreadObjects j1 !! weakCallbackQueueThread = Some (submitted ++ runnables)
    ∧ calls <$> runnables = batches
    ∧ received j1 = received j
    ∧ run_all runnables j1
      = (Ok tt, after_receiving (concat (batch_invocations weakCallback <$> batches)) j1).
Proof.
  intros Hpending Hqueue Hcb Hquiet Hwf.
  destruct (dispatch_all_enqueues weakCallback weakCallbackQueueThread batches j
              submitted Hpending Hqueue)
    as (j1 & Hrun & Hq & Hcb1 & Hp1 & Hr1).
  exists j1, ((λ batch, {| weakCallback := weakCallback; calls := batch |}) <$> batches).
  split; [exact Hrun|]. split; [exact Hq|]. split.
  { rewrite <- list_fmap_compose. apply list_fmap_id. }
  split; [exact Hr1|].
  apply (run_all_quiet weakCallback cb); try done. by rewrite Hcb1.
Qed.

(** ** What the executor is handed *)

Lemma invokeCallback_keeps_flag bridge callbackId args h a :
  arrays h !! args = Some a →
  bridge.invokeCallback bridge callbackId args h
  = (executeJSCall bridge "BatchedBridge" "invokeCallbackAndReturnFlushedQueue"
       [DDouble (double_of_int callbackId); NativeArray.array a],
     {| arrays := <[args := {| NativeArray.isConsumed := NativeArray.isConsumed a;
                               NativeArray.array := moved_from (NativeArray.array a) |}]>
                    (arrays h);
        maps := maps h; iterators := iterators h |}).
Proof.
  intros Ha. unfold bridge.invokeCallback, try_catch,
    bridge.translatePendingCppExceptionToJavaException. jni_unfold.
  rewrite Ha. jni_simpl.
  by destruct (executeJSCall bridge _ _ _) as [[]|e|].
Qed.

Lemma jint_exact n : - 2 ^ 31 ≤ n < 2 ^ 31 → double_is_int (double_of_int n) n = true.
Proof. intros Hn. apply double_of_int_exact. lia. Qed.

(** X13: [callFunction] hands the executor the module id and the method
    id as doubles that are exactly the ids, and the value of the arguments
    array, under [callFunctionReturnFlushedQueue] of [BatchedBridge];
    [invokeCallback] the callback id and the value, under
    [invokeCallbackAndReturnFlushedQueue].  What the executor returns or
    throws is the outcome of the call, and no object but the arguments
    array changes. *)
Theorem executor_is_handed_ids_and_arguments
    (bridge : Bridge) (moduleId methodId callbackId : Z) (args : jobject)
    (h : heap) (a : NativeArray.t) :
  arrays h !! args = Some a →
  - 2 ^ 31 ≤ moduleId < 2 ^ 31 →
  - 2 ^ 31 ≤ methodId < 2 ^ 31 →
  - 2 ^ 31 ≤ callbackId < 2 ^ 31 →
  (∃ module method h',
     bridge.callFunction bridge moduleId methodId args h
     = (executeJSCall bridge "BatchedBridge" "callFunctionReturnFlushedQueue"
          [DDouble module; DDouble method; NativeArray.array a], h')
     ∧ double_is_int module moduleId = true
     ∧ double_is_int method methodId = true
     ∧ only_changes (AnArray args) h h')
  ∧ (∃ callback h',
       bridge.invokeCallback bridge callbackId args h
       = (executeJSCall bridge "BatchedBridge" "invokeCallbackAndReturnFlushedQueue"
            [DDouble callback; NativeArray.array a], h')
       ∧ double_is_int callback callbackId = true
       ∧ only_changes (AnArray args) h h').
Proof.
  intros Ha Hmodule Hmethod Hcallback. split.
  - destruct (callFunction_keeps_flag bridge moduleId methodId args h a Ha)
      as (r & Hrun & ->).
    eexists _, _, _. split; [exact Hrun|].
    split; [by apply jint_exact|]. split; [by apply jint_exact|].
    split; [reflexivity|]. split; [reflexivity|].
    intros other Hother. cbn. by apply lookup_insert_ne.
  - eexists _, _. split; [by apply invokeCallback_keeps_flag|].
    split; [by apply jint_exact|].
    split; [reflexivity|]. split; [reflexivity|].
    intros other Hother. cbn. by apply lookup_insert_ne.
Qed.
(** ** Invariants of the heap *)

Lemma live_cases h c : live h c ↔ consumed h c ∨ unconsumed h c.
Proof.
  destruct c as [o|o]; cbn; split.
  - intros [[[] v] Hx]; [left|right]; by eexists.
  - intros [(x & -> & _)|(x & -> & _)]; by eexists.
  - intros [[[] v] Hx]; [left|right]; by eexists.
  - intros [(x & -> & _)|(x & -> & _)]; by eexists.
Qed.

Lemma consumed_not_unconsumed h c : consumed h c → unconsumed h c → False.
Proof.
  destruct c; cbn; intros (x & Hx & Hc) (y & Hy & Hu); simplify_eq; congruence.
Qed.

Lemma evolves_refl source h : evolves source h h.
Proof.
  split; [done|]. split; [done|]. split; [done|].
  intros c Hu Hc. destruct (consumed_not_unconsumed h c Hc Hu).
Qed.

Lemma evolves_trans source h1 h2 h3 :
  evolves source h1 h2 → evolves source h2 h3 → evolves source h1 h3.
Proof.
  intros (K1 & L1 & C1 & S1) (K2 & L2 & C2 & S2).
  split; [auto|]. split; [auto|]. split; [auto|].
  intros c Hu Hc.
  destruct (proj1 (live_cases h2 c)) as [Hc2|Hu2]; [|by apply S1|by apply S2].
  apply L1, live_cases. by right.
Qed.

Lemma evolves_set_array source A M I o a a' :
  A !! o = Some a →
  (NativeArray.isConsumed a = true → NativeArray.isConsumed a' = true) →
  (NativeArray.isConsumed a = false → NativeArray.isConsumed a' = true →
   source = Some (AnArray o)) →
  (folly.isArray (NativeArray.array a) = true →
   folly.isArray (NativeArray.array a') = true) →
  evolves source {| arrays := A; maps := M; iterators := I |}
    {| arrays := <[o := a']> A; maps := M; iterators := I |}.
Proof.
  intros Ho Hflag Hsource Hkind. split; [|split; [|split]].
  - intros [Ka Km]. split; [|exact Km]. cbn in *. intros this x.
    rewrite lookup_insert. case_decide; [|by apply Ka].
    intros [= <-]. subst. by eapply Hkind, Ka.
  - intros [this|obj]; cbn; [|done].
    rewrite lookup_insert. by case_decide.
  - intros [this|obj]; cbn; [|done].
    rewrite lookup_insert. case_decide; [|done].
    subst. intros (x & Hx & Hc). simplify_eq. eexists. split; [done|]. by apply Hflag.
  - intros [this|obj]; cbn.
    + rewrite lookup_insert. case_decide.
      * subst. intros (x & Hx & Hu) (y & Hy & Hc). simplify_eq.
        by rewrite (Hsource Hu Hc).
      * intros Hu Hc. destruct (consumed_not_unconsumed
          {| arrays := A; maps := M; iterators := I |} (AnArray this) Hc Hu).
    + intros Hu Hc. destruct (consumed_not_unconsumed
        {| arrays := A; maps := M; iterators := I |} (AMap obj) Hc Hu).
Qed.

Lemma evolves_set_map source A M I o m m' :
  M !! o = Some m →
  (NativeMap.isConsumed m = true → NativeMap.isConsumed m' = true) →
  (NativeMap.isConsumed m = false → NativeMap.isConsumed m' = true →
   source = Some (AMap o)) →
  (folly.isObject (NativeMap.map m) = true →
   folly.isObject (NativeMap.map m') = true) →
  evolves source {| arrays := A; maps := M; iterators := I |}
    {| arrays := A; maps := <[o := m']> M; iterators := I |}.
Proof.
  intros Ho Hflag Hsource Hkind. split; [|split; [|split]].
  - intros [Ka Km]. split; [exact Ka|]. cbn in *. intros this x.
    rewrite lookup_insert. case_decide; [|by apply Km].
    intros [= <-]. subst. by eapply Hkind, Km.
  - intros [this|obj]; cbn; [done|].
    rewrite lookup_insert. by case_decide.
  - intros [this|obj]; cbn; [done|].
    rewrite lookup_insert. case_decide; [|done].
    subst. intros (x & Hx & Hc). simplify_eq. eexists. split; [done|]. by apply Hflag.
  - intros [this|obj]; cbn.
    + intros Hu Hc. destruct (consumed_not_unconsumed
        {| arrays := A; maps := M; iterators := I |} (AnArray this) Hc Hu).
    + rewrite lookup_insert. case_decide.
      * subst. intros (x & Hx & Hu) (y & Hy & Hc). simplify_eq.
        by rewrite (Hsource Hu Hc).
      * intros Hu Hc. destruct (consumed_not_unconsumed
          {| arrays := A; maps := M; iterators := I |} (AMap obj) Hc Hu).
Qed.

Lemma evolves_new_array source A M I o a :
  A !! o = None →
  folly.isArray (NativeArray.array a) = true →
  evolves source {| arrays := A; maps := M; iterators := I |}
    {| arrays := <[o := a]> A; maps := M; iterators := I |}.
Proof.
  intros Ho Hkind. split; [|split; [|split]].
  - intros [Ka Km]. split; [|exact Km]. cbn in *. intros this x.
    rewrite lookup_insert. case_decide; [|by apply Ka]. by intros [= <-].
  - intros [this|obj]; cbn; [|done].
    rewrite lookup_insert. by case_decide.
  - intros [this|obj]; cbn; [|done].
    rewrite lookup_insert. case_decide; [|done].
    subst. intros (x & Hx & Hc). congruence.
  - intros [this|obj]; cbn.
    + rewrite lookup_insert. case_decide.
      * subst. intros (x & Hx & Hu). congruence.
      * intros Hu Hc. destruct (consumed_not_unconsumed
          {| arrays := A; maps := M; iterators := I |} (AnArray this) Hc Hu).
    + intros Hu Hc. destruct (consumed_not_unconsumed
        {| arrays := A; maps := M; iterators := I |} (AMap obj) Hc Hu).
Qed.

Lemma evolves_new_map source A M I o m :
  M !! o = None →
  folly.isObject (NativeMap.map m) = true →
  evolves source {| arrays := A; maps := M; iterators := I |}
    {| arrays := A; maps := <[o := m]> M; iterators := I |}.
Proof.
  intros Ho Hkind. split; [|split; [|split]].
  - intros [Ka Km]. split; [exact Ka|]. cbn in *. intros this x.
    rewrite lookup_insert. case_decide; [|by apply Km]. by intros [= <-].
  - intros [this|obj]; cbn; [done|].
    rewrite lookup_insert. by case_decide.
  - intros [this|obj]; cbn; [done|].
    rewrite lookup_insert. case_decide; [|done].
    subst. intros (x & Hx & Hc). congruence.
  - intros [this|obj]; cbn.
    + intros Hu Hc. destruct (consumed_not_unconsumed
        {| arrays := A; maps := M; iterators := I |} (AnArray this) Hc Hu).
    + rewrite lookup_insert. case_decide.
      * subst. intros (x & Hx & Hu). congruence.
      * intros Hu Hc. destruct (consumed_not_unconsumed
          {| arrays := A; maps := M; iterators := I |} (AMap obj) Hc Hu).
Qed.

Lemma push_back_isArray d v d' :
  folly.push_back d v = Ok d' → folly.isArray d' = true.
Proof. destruct d; cbn; intros [= <-]; done. Qed.

Lemma insert_isObject d key v d' :
  folly.insert d key v = Ok d' → folly.isObject d' = true.
Proof. destruct d; cbn; intros [= <-]; done. Qed.

Lemma erase_isObject d key d' :
  folly.erase d key = Ok d' → folly.isObject d' = true.
Proof. destruct d; cbn; intros [= <-]; done. Qed.

Lemma moved_from_isArray d : folly.isArray (moved_from d) = folly.isArray d.
Proof. by destruct d. Qed.

Lemma moved_from_isObject d : folly.isObject (moved_from d) = folly.isObject d.
Proof. by destruct d. Qed.

Ltac evolve_side :=
  cbn [NativeArray.isConsumed NativeArray.array NativeMap.isConsumed NativeMap.map];
  rewrite ?moved_from_isArray, ?moved_from_isObject;
  first
    [ eassumption
    | by rewrite lookup_insert_ne by done
    | by apply not_elem_of_dom, is_fresh
    | by eauto using push_back_isArray, insert_isObject, erase_isObject
    | by apply negb_false_iff
    | by intros; apply negb_false_iff
    | by intros; congruence
    | done ].

Ltac evolve :=
  lazymatch goal with
  | |- evolves ?s ?h {| arrays := <[?o := ?a']> ?A; maps := ?M; iterators := ?I |} =>
      apply (evolves_trans s h {| arrays := A; maps := M; iterators := I |});
      [ evolve
      | first [ eapply evolves_set_array; evolve_side
              | eapply evolves_new_array; evolve_side ] ]
  | |- evolves ?s ?h {| arrays := ?A; maps := <[?o := ?m']> ?M; iterators := ?I |} =>
      apply (evolves_trans s h {| arrays := A; maps := M; iterators := I |});
      [ evolve
      | first [ eapply evolves_set_map; evolve_side
              | eapply evolves_new_map; evolve_side ] ]
  | |- evolves _ _ _ => apply evolves_refl
  end.

Ltac native_cases :=
  repeat (case_match; jni_simpl; simplify_eq; jni_simpl).

Lemma mergeMap_loop_evolves source obj sourceItems h :
  evolves source h (map.writable.mergeMap_loop obj sourceItems h).2.
Proof.
  revert h. induction sourceItems as [|sourceIt rest IH]; intros h.
  - apply evolves_refl.
  - cbn [map.writable.mergeMap_loop]. jni_unfold.
    destruct h as [A M I]. jni_simpl.
    destruct (M !! obj) as [m|] eqn:Hm; [|apply evolves_refl]. jni_simpl.
    destruct (folly.erase (NativeMap.map m) sourceIt.1) as [erased| |] eqn:Herase;
      [|apply evolves_refl..].
    destruct (folly.insert erased sourceIt.1 sourceIt.2) as [inserted| |] eqn:Hinsert;
      [|apply evolves_refl..].
    jni_simpl.
    eapply evolves_trans; [|apply IH].
    evolve.
Qed.

Lemma run_native_evolves n h : evolves (consumes n) h (run_native n h).2.
Proof.
  destruct h as [A M I].
  destruct n; cbn [run_native consumes].
  - jni_unfold. native_cases; evolve.
  - jni_unfold. native_cases; evolve.
  - jni_unfold. native_cases; evolve.
  - jni_unfold. native_cases; evolve.
  - jni_unfold. native_cases; evolve.
  - jni_unfold. native_cases; evolve.
  - jni_unfold. native_cases; evolve.
  - jni_unfold. native_cases; evolve.
  - jni_unfold. native_cases; evolve.
  - jni_unfold. native_cases; evolve.
  - jni_unfold. native_cases; evolve.
  - jni_unfold. native_cases; evolve.
  - jni_unfold. native_cases; first [apply mergeMap_loop_evolves | evolve].
  - unfold discard, ReadableNativeArray.getArray, ReadableNativeArray.array_at,
      createReadableNativeArrayWithContents, readableNativeArrayOf,
      newNativeArray, throwNewJavaException.
    jni_unfold. native_cases; evolve.
  - unfold discard, ReadableNativeArray.getMap, ReadableNativeArray.array_at,
      createReadableNativeMapWithContents, newNativeMap, throwNewJavaException.
    jni_unfold. native_cases; evolve.
  - unfold discard, map.readable.getArrayKey, map.readable.getMapValue, try_catch,
      createReadableNativeArrayWithContents, readableNativeArrayOf,
      newNativeArray, throwNewJavaException.
    jni_unfold. native_cases; evolve.
  - unfold discard, map.readable.getMapKey, map.readable.getMapValue, try_catch,
      createReadableNativeMapWithContents, newNativeMap, throwNewJavaException.
    jni_unfold. native_cases; evolve.
  - unfold bridge.callFunction, try_catch,
      bridge.translatePendingCppExceptionToJavaException.
    jni_unfold. native_cases; evolve.
  - unfold bridge.invokeCallback, try_catch,
      bridge.translatePendingCppExceptionToJavaException.
    jni_unfold. native_cases; evolve.
Qed.

Lemma run_natives_live ns h c : live h c → live (run_natives ns h) c.
Proof.
  revert h. induction ns as [|n ns IH]; intros h Hl; [done|].
  cbn. apply IH. by apply (run_native_evolves n h).
Qed.

(** X14: whatever natives are called one after the other on a heap in
    which every array object holds an array and every map object an
    object, this stays so; every object stays alive, and a container that
    is consumed stays consumed. *)
Theorem natives_keep_kinds_and_flags (ns : list natives.t) (h : heap) :
  well_kinded h →
  well_kinded (run_natives ns h)
  ∧ (∀ c, live h c → live (run_natives ns h) c)
  ∧ (∀ c, consumed h c → consumed (run_natives ns h) c).
Proof.
  revert h. induction ns as [|n ns IH]; intros h Hk; [done|].
  destruct (run_native_evolves n h) as (K & L & C & _).
  destruct (IH (run_native n h).2 (K Hk)) as (K' & L' & C').
  cbn. split; [exact K'|]. split; intros c Hc; [apply L', L, Hc | apply C', C, Hc].
Qed.

(** X15: a container that is unconsumed before natives are called and
    consumed after them was the non-null source of a [pushArray],
    [pushMap], [putArray] or [putMap] among them: no other native sets a
    flag. *)
Theorem flag_is_set_by_a_transfer_only (ns : list natives.t) (h : heap) (c : container) :
  unconsumed h c →
  consumed (run_natives ns h) c →
  ∃ n, n ∈ ns ∧ consumes n = Some c.
Proof.
  revert h. induction ns as [|n ns IH]; intros h Hu Hc.
  - destruct (consumed_not_unconsumed h c Hc Hu).
  - destruct (run_native_evolves n h) as (_ & L & _ & S).
    destruct (proj1 (live_cases (run_native n h).2 c)) as [Hc1|Hu1].
    + apply L, live_cases. by right.
    + exists n. split; [apply elem_of_cons; by left|]. by apply S.
    + destruct (IH _ Hu1 Hc) as (n' & Hin & Hn').
      exists n'. split; [apply elem_of_cons; by right|done].
Qed.

(** ** A new map *)

(** X16: a map as [initialize] makes it is unconsumed and empty: it has no
    key, every lookup throws [NoSuchKeyException], and an iterator made
    over it has no next key. *)
Theorem new_map_is_empty (h : heap) (obj : jobject) :
  ∃ h', map.initialize obj h = (Ok tt, h')
        ∧ unconsumed h' (AMap obj)
        ∧ (∀ keyName,
             returns (map.readable.hasKey obj keyName) false h'
             ∧ throws_Java (map.readable.getMapValue obj keyName)
                 map.readable.gNoSuchKeyExceptionClass h')
        ∧ ∀ it, ∃ h1, map.iterator.initialize it obj h' = (Ok tt, h1)
                      ∧ map.iterator.hasNextKey it h1 = (Ok false, h1)
                      ∧ drain 1 it h1 = (Ok [], h1).
Proof.
  eexists. split; [reflexivity|].
  assert (Hobj : holds_object (setNativeMap obj NativeMap.new h).2 obj ∅).
  { eexists. split; [apply lookup_insert_eq|reflexivity]. }
  split; [eexists; split; [apply lookup_insert_eq|reflexivity]|].
  split.
  - intros keyName. split.
    + pose proof (hasKey_holds _ obj ∅ keyName Hobj) as Hhas.
      by rewrite lookup_empty in Hhas.
    + by apply (getMapValue_missing _ obj ∅).
  - intros it.
    destruct (initialize_positioned _ it obj ∅ Hobj) as (h1 & Hinit & Hpos & _).
    exists h1. split; [exact Hinit|].
    pose proof (hasNextKey_positioned h1 it 0 ∅ Hpos) as Hnext.
    assert (keys ∅ = []) as Hkeys by (unfold keys; by rewrite map_to_list_empty).
    rewrite Hkeys in Hnext. cbn in Hnext.
    split; [exact Hnext|]. cbn [drain].
    by erewrite bind_Ok by exact Hnext.
Qed.

(** ** Further concrete runs *)

Lemma holds_object_map_1 : holds_object heap_array_and_map 1%nat map_a_true.
Proof. eexists. split; vm_compute; reflexivity. Defined.


Lemma missing_key_throws_NoSuchKey_witness :
  returns (map.readable.hasKey 1%nat "b") false heap_array_and_map
  ∧ throws_Java (map.readable.getStringKey 1%nat "b")
      map.readable.gNoSuchKeyExceptionClass heap_array_and_map.
Proof.
  destruct (missing_key_throws_NoSuchKey heap_array_and_map 1%nat map_a_true "b"
              holds_object_map_1)
    as (Hhas & _ & _ & _ & Hstring & _); [vm_compute; reflexivity|].
  by split.
Defined.






Lemma getMap_hands_out_copy_witness :
  hands_out_map (read_map (Index 0%nat 0)) (DObject map_a_true) heap_map_pushed.
Proof.
  apply (getMap_hands_out_copy heap_map_pushed (Index 0%nat 0) (DObject map_a_true)).
  vm_compute. reflexivity.
Defined.


Lemma merge_is_union_and_idempotent_witness :
  ∃ h1 h2,
    map.writable.mergeMap 0%nat 1%nat heap_two_maps = (Ok tt, h1)
    ∧ maps h1 !! 0%nat
      = Some {| NativeMap.isConsumed := false;
                NativeMap.map := DObject (map_b_c ∪ map_a_b) |}
    ∧ only_changes (AMap 0%nat) heap_two_maps h1
    ∧ map.writable.mergeMap 0%nat 1%nat h1 = (Ok tt, h2)
    ∧ maps h2 !! 0%nat = maps h1 !! 0%nat
    ∧ (map_b_c = ∅ → maps h1 !! 0%nat = maps heap_two_maps !! 0%nat).
Proof.
  apply (merge_is_union_and_idempotent heap_two_maps 0%nat 1%nat map_a_b map_b_c).
  - discriminate.
  - vm_compute. reflexivity.
  - vm_compute. reflexivity.
Defined.

Lemma delivery_stops_at_exception_witness :
  bridge.runnableFunction 7%nat
    ([call_with_arguments] ++ call_to_module_3 :: [call_with_arguments])
    java_throwing_callback
  = (Ok tt,
     after_throwing (call_invocations 7%nat ([call_with_arguments] ++ [call_to_module_3]))
       java_throwing_callback).
Proof.
  apply (delivery_stops_at_exception 7%nat callback_throwing_on_3
           [call_with_arguments] [call_with_arguments] call_to_module_3
           java_throwing_callback).
  - reflexivity.
  - vm_compute. reflexivity.
  - constructor; [right; reflexivity|].
    constructor; [right; reflexivity|]. constructor.
  - reflexivity.
  - constructor; [reflexivity|]. constructor.
  - reflexivity.
Defined.

Lemma batches_are_delivered_first_in_first_out_witness :
  ∃ j1 runnables,
    dispatch_all 7%nat 8%nat [[call_with_arguments]; [call_without_arguments]]
      java_callback_and_queue = (Ok tt, j1)
    ∧ queueThreadObjects j1 !! 8%nat = Some ([] ++ runnables)
    ∧ calls <$> runnables = [[call_with_arguments]; [call_without_arguments]]
    ∧ received j1 = received java_callback_and_queue
    ∧ run_all runnables j1
      = (Ok tt,
         after_receiving
           (concat (batch_invocations 7%nat
                      <$> [[call_with_arguments]; [call_without_arguments]])) j1).
Proof.
  apply (batches_are_delivered_first_in_first_out 7%nat 8%nat
           [[call_with_arguments]; [call_without_arguments]] quiet_callback
           java_callback_and_queue []).
  - reflexivity.
  - vm_compute. reflexivity.
  - vm_compute. reflexivity.
  - split; [intros; reflexivity | reflexivity].
  - constructor.
    + constructor; [right; reflexivity|constructor].
    + constructor; [|constructor].
      constructor; [left; reflexivity|constructor].
Defined.

Lemma executor_is_handed_ids_and_arguments_witness :
  ∃ module method h',
    bridge.callFunction returning_bridge 3 7 0%nat heap_with_arguments
    = (executeJSCall returning_bridge "BatchedBridge" "callFunctionReturnFlushedQueue"
         [DDouble module; DDouble method; DArray [DBool true]], h')
    ∧ double_is_int module 3 = true
    ∧ double_is_int method 7 = true
    ∧ only_changes (AnArray 0%nat) heap_with_arguments h'.
Proof.
  apply (executor_is_handed_ids_and_arguments returning_bridge 3 7 5 0%nat
           heap_with_arguments
           {| NativeArray.isConsumed := false; NativeArray.array := DArray [DBool true] |}).
  - vm_compute. reflexivity.
  - split; [vm_compute; discriminate | reflexivity].
  - split; [vm_compute; discriminate | reflexivity].
  - split; [vm_compute; discriminate | reflexivity].
Defined.

Lemma well_kinded_array_and_map : well_kinded heap_array_and_map.
Proof.
  split; cbn [heap_array_and_map arrays maps]; intros o x;
    rewrite lookup_insert; case_decide;
    first [ by intros [= <-] | by rewrite lookup_empty ].
Defined.

Lemma natives_keep_kinds_and_flags_witness :
  well_kinded
    (run_natives [natives.pushNativeMap 0%nat (Some 1%nat); natives.putNull 1%nat "k"]
       heap_array_and_map).
Proof.
  apply (natives_keep_kinds_and_flags
           [natives.pushNativeMap 0%nat (Some 1%nat); natives.putNull 1%nat "k"]
           heap_array_and_map well_kinded_array_and_map).
Defined.

Lemma flag_is_set_by_a_transfer_only_witness :
  ∃ n, n ∈ [natives.pushNull 0%nat; natives.pushNativeMap 0%nat (Some 1%nat)]
       ∧ consumes n = Some (AMap 1%nat).
Proof.
  apply (flag_is_set_by_a_transfer_only
           [natives.pushNull 0%nat; natives.pushNativeMap 0%nat (Some 1%nat)]
           heap_array_and_map (AMap 1%nat)).
  - eexists. split; vm_compute; reflexivity.
  - eexists. split; vm_compute; reflexivity.
Defined.
